(** * Resource lifetime and statement validity in DuckDB

    A shallow embedding of
    - class [CommonSubExpression] of [planner/expression/common_subexpression.hpp],
    - the methods of class [AttachedDatabase] that follow it in the same
      source file (constructor, destructor, [ExtractDatabaseName],
      [Initialize] and the getters),
    - the functions of [extension/icu/icu-extension.cpp] (bind data, sort
      keys, the collation function, the time zone table function, [Load]),
    and a model of the client API exercised by [test/api/test_prepared_api.cpp]
    (catalog, transactions, connections and prepared statements). *)

From stdpp Require Import base option list strings pretty gmap.

Local Open Scope list_scope.

(** ** planner/expression/common_subexpression.hpp *)

Module Planner.

(** The two virtual predicates of [Expression] that the header overrides. *)
Class Expression (E : Type) := {
  IsScalar : E → bool;
  IsFoldable : E → bool
}.

(** [Expression *child] points to an expression of any subclass [E];
    [owned_child] is set when the node was built from a [unique_ptr]. *)
Record CommonSubExpression (E : Type) := {
  child : E;
  owned_child : option E;
  alias : string
}.
Arguments child {E} _.
Arguments owned_child {E} _.
Arguments alias {E} _.

#[global] Instance CommonSubExpression_Expression {E : Type} `{Expression E} :
  Expression (CommonSubExpression E) := {
  IsScalar := λ _, false;
  IsFoldable := λ _, false
}.

(** A leaf expression class used to exercise the override: a constant is
    scalar and foldable. *)
Record ConstantExpression := { value : Z }.

#[global] Instance ConstantExpression_Expression : Expression ConstantExpression := {
  IsScalar := λ _, true;
  IsFoldable := λ _, true
}.

End Planner.

(** ** Calls into collaborators: traces and exceptions *)

(** C++ exceptions carry a message. *)
Definition Exn : Type := string.

(** The calls [AttachedDatabase] makes on its storage manager and catalog. *)
Inductive Event : Type :=
| EvInMemory
| EvCreateCheckpoint (force : bool)
| EvCatalogInitialize (arg : bool)
| EvStorageInitialize.

Inductive Outcome (A : Type) : Type :=
| Returned (a : A)
| Thrown (e : Exn).
Arguments Returned {A} _.
Arguments Thrown {A} _.

(** A computation yields the calls it made, in order, and how it ended. *)
Definition Eff (A : Type) : Type := (list Event * Outcome A)%type.

Definition trace {A} (m : Eff A) : list Event := m.1.
Definition outcome {A} (m : Eff A) : Outcome A := m.2.

#[export] Instance Eff_ret : MRet Eff := λ A a, ([], Returned a).

#[export] Instance Eff_bind : MBind Eff := λ A B k m,
  match m.2 with
  | Returned a => (m.1 ++ (k a).1, (k a).2)
  | Thrown e => (m.1, Thrown e)
  end.

(** A call to a collaborator: logged, then it returns or throws. *)
Definition call {A} (ev : Event) (res : Exn + A) : Eff A :=
  match res with
  | inr a => ([ev], Returned a)
  | inl e => ([ev], Thrown e)
  end.

(** [try { body } catch (...) { handler }] *)
Definition try_catch {A} (body : Eff A) (handler : Exn → Eff A) : Eff A :=
  match body.2 with
  | Returned a => body
  | Thrown e => (body.1 ++ (handler e).1, (handler e).2)
  end.

Definition is_checkpoint (ev : Event) : bool :=
  match ev with EvCreateCheckpoint _ => true | _ => false end.

Definition checkpoint_attempts (tr : list Event) : nat :=
  length (List.filter is_checkpoint tr).

(** ** Errors of the client API *)

Inductive ParameterProblem : Type :=
| WrongArity
| NonCoercible.

(** Modelled from the spec: the errors of section 7 that reach a caller (the
    checkpoint error never does), with the not-found error of named
    re-execution and the commit error of section 4.2; the classes that raise
    them are not among the sources. The last error is what a call on a
    connection gets once the connection or its database is gone (the test
    expects [con->Query] to fail after [db.reset()]). *)
Inductive Error : Type :=
| AttachError (msg : string)
| ParseOrBindError (msg : string)
| ParameterError (why : ParameterProblem)
| InvalidatedStatementError
| TransactionStateError
| CommitError
| CatalogError (msg : string)
| NotFoundError (name : string)
| InvalidatedConnectionError.

Inductive Result (A : Type) : Type :=
| Ok (a : A)
| Err (e : Error).
Arguments Ok {A} _.
Arguments Err {A} _.

(** ** Catalog *)

Inductive CatalogType : Type :=
| TABLE_ENTRY
| SCALAR_FUNCTION_ENTRY
| TABLE_FUNCTION_ENTRY
| COLLATION_ENTRY.

Module CatalogEntry.

(** Modelled from the spec: the catalog entry of section 3 (class not among
    the sources): name, kind, nullable owning transaction and invalidation flag. *)
Record t : Type := {
  name : string;
  kind : CatalogType;
  owning_transaction_id : option nat;
  invalidated : bool
}.

End CatalogEntry.

Module Catalog.

(** Modelled from the spec: class [Catalog] (not among the sources). Entries are
    never removed, only flagged, so an [EntryRef] (the position of the entry)
    stays meaningful for every holder of a direct reference. *)
Record t : Type := { entries : list CatalogEntry.t }.

Definition EntryRef : Type := nat.

Definition empty : t := {| entries := [] |}.

(** Modelled from the spec: name-resolution visibility. An invalidated entry
    is never visible; a committed entry (no owner) is visible to everyone; an
    uncommitted one only to its own transaction. *)
Definition visible (as_of_tx : option nat) (e : CatalogEntry.t) : bool :=
  negb (CatalogEntry.invalidated e) &&
  match CatalogEntry.owning_transaction_id e with
  | None => true
  | Some owner => bool_decide (as_of_tx = Some owner)
  end.

Fixpoint find_visible (nm : string) (as_of_tx : option nat)
    (es : list CatalogEntry.t) (pos : nat) : option EntryRef :=
  match es with
  | [] => None
  | e :: rest =>
      if visible as_of_tx e && bool_decide (CatalogEntry.name e = nm)
      then Some pos
      else find_visible nm as_of_tx rest (S pos)
  end.

(** Modelled from the spec: [Resolve(name, as_of_tx)] of section 6. *)
Definition Resolve (c : t) (nm : string) (as_of_tx : option nat) : Result EntryRef :=
  match find_visible nm as_of_tx (entries c) 0 with
  | Some r => Ok r
  | None => Err (CatalogError nm)
  end.

(** Modelled from the spec: [CreateEntry(tx_id, name, kind, definition)] of
    section 6; the definition is opaque and not stored. The new entry is
    linked to [tx_id]; a name already visible to [tx_id] is a catalog error. *)
Definition CreateEntry (c : t) (tx_id : nat) (nm : string) (k : CatalogType)
    : t * Result EntryRef :=
  match find_visible nm (Some tx_id) (entries c) 0 with
  | Some _ => (c, Err (CatalogError nm))
  | None =>
      ({| entries := entries c ++
            [ {| CatalogEntry.name := nm; CatalogEntry.kind := k;
                 CatalogEntry.owning_transaction_id := Some tx_id;
                 CatalogEntry.invalidated := false |} ] |},
       Ok (length (entries c)))
  end.

Definition invalidate_entry (tx_id : nat) (e : CatalogEntry.t) : CatalogEntry.t :=
  if bool_decide (CatalogEntry.owning_transaction_id e = Some tx_id)
  then {| CatalogEntry.name := CatalogEntry.name e;
          CatalogEntry.kind := CatalogEntry.kind e;
          CatalogEntry.owning_transaction_id := CatalogEntry.owning_transaction_id e;
          CatalogEntry.invalidated := true |}
  else e.

(** Modelled from the spec: [Invalidate(tx_id)], called on rollback: every
    entry owned by [tx_id] gets [invalidated = true]. *)
Definition Invalidate (c : t) (tx_id : nat) : t :=
  {| entries := invalidate_entry tx_id <$> entries c |}.

Definition commit_entry (tx_id : nat) (e : CatalogEntry.t) : CatalogEntry.t :=
  if bool_decide (CatalogEntry.owning_transaction_id e = Some tx_id)
  then {| CatalogEntry.name := CatalogEntry.name e;
          CatalogEntry.kind := CatalogEntry.kind e;
          CatalogEntry.owning_transaction_id := None;
          CatalogEntry.invalidated := CatalogEntry.invalidated e |}
  else e.

(** Modelled from the spec: [Commit(tx_id)]: the transaction linkage of every
    entry owned by [tx_id] is cleared. *)
Definition Commit (c : t) (tx_id : nat) : t :=
  {| entries := commit_entry tx_id <$> entries c |}.

(** A holder of a direct reference detects invalidation through the flag; a
    reference that does not resolve counts as invalidated. *)
Definition is_invalidated (c : t) (r : EntryRef) : bool :=
  match entries c !! r with
  | Some e => CatalogEntry.invalidated e
  | None => true
  end.

End Catalog.

(** ** Transactions *)

Inductive TransactionStatus : Type :=
| Active
| Committed
| RolledBack.

Module Transaction.

(** Modelled from the spec: the transaction of section 3 (class not among
    the sources). *)
Record t : Type := {
  id : nat;
  status : TransactionStatus;
  catalog_changes : list Catalog.EntryRef
}.

Definition with_status (tx : t) (s : TransactionStatus) : t :=
  {| id := id tx; status := s; catalog_changes := catalog_changes tx |}.

Definition record_change (tx : t) (r : Catalog.EntryRef) : t :=
  {| id := id tx; status := status tx;
     catalog_changes := catalog_changes tx ++ [r] |}.

End Transaction.

Module TransactionManager.

(** Modelled from the spec: class [TransactionManager] (not among the sources): the
    next identifier to hand out, the identifiers of the active transactions
    of one attachment, and those of the transactions that ended RolledBack (a
    terminal transaction is immutable, so its outcome stays known). *)
Record t : Type := {
  next_transaction_id : nat;
  active_transactions : gset nat;
  rolled_back_transactions : gset nat
}.

Definition create : t :=
  {| next_transaction_id := 0; active_transactions := ∅;
     rolled_back_transactions := ∅ |}.

(** Modelled from the spec: [Begin()] allocates the next identifier and
    returns an Active transaction. *)
Definition Begin (tm : t) : t * Transaction.t :=
  ({| next_transaction_id := S (next_transaction_id tm);
      active_transactions := {[ next_transaction_id tm ]} ∪ active_transactions tm;
      rolled_back_transactions := rolled_back_transactions tm |},
   {| Transaction.id := next_transaction_id tm;
      Transaction.status := Active;
      Transaction.catalog_changes := [] |}).

Definition retire (tm : t) (tx_id : nat) : t :=
  {| next_transaction_id := next_transaction_id tm;
     active_transactions := active_transactions tm ∖ {[ tx_id ]};
     rolled_back_transactions := rolled_back_transactions tm |}.

(** The transaction leaves the active set and is recorded as RolledBack. *)
Definition undo (tm : t) (tx_id : nat) : t :=
  {| next_transaction_id := next_transaction_id tm;
     active_transactions := active_transactions tm ∖ {[ tx_id ]};
     rolled_back_transactions := {[ tx_id ]} ∪ rolled_back_transactions tm |}.

(** Modelled from the spec: [Rollback(tx)] requires an Active transaction,
    invalidates every catalog entry it owns and makes it RolledBack. *)
Definition Rollback (tm : t) (cat : Catalog.t) (tx : Transaction.t)
    : t * Catalog.t * Transaction.t * Result unit :=
  match Transaction.status tx with
  | Active =>
      (undo tm (Transaction.id tx),
       Catalog.Invalidate cat (Transaction.id tx),
       Transaction.with_status tx RolledBack,
       Ok ())
  | _ => (tm, cat, tx, Err TransactionStateError)
  end.

(** Modelled from the spec: [Commit(tx)] requires an Active transaction; when
    the storage layer persists the changes ([persisted]) the linkage of its
    entries is cleared and it becomes Committed; when persisting fails the
    changes are rolled back instead and a commit error surfaces. *)
Definition Commit (tm : t) (cat : Catalog.t) (tx : Transaction.t) (persisted : bool)
    : t * Catalog.t * Transaction.t * Result unit :=
  match Transaction.status tx with
  | Active =>
      if persisted then
        (retire tm (Transaction.id tx),
         Catalog.Commit cat (Transaction.id tx),
         Transaction.with_status tx Committed,
         Ok ())
      else
        (undo tm (Transaction.id tx),
         Catalog.Invalidate cat (Transaction.id tx),
         Transaction.with_status tx RolledBack,
         Err CommitError)
  | _ => (tm, cat, tx, Err TransactionStateError)
  end.

End TransactionManager.

(** ** AttachedDatabase *)

Inductive AccessMode : Type :=
| READ_WRITE
| READ_ONLY.

#[export] Instance AccessMode_eq_dec : EqDecision AccessMode.
Proof. solve_decision. Defined.

(** [config.options]: the three options the file reads. *)
Record DBConfigOptions : Type := {
  database_path : string;
  access_mode : AccessMode;
  checkpoint_on_shutdown : bool
}.

Record DBConfig : Type := { options : DBConfigOptions }.

Record DatabaseInstance : Type := { config : DBConfig }.

Module DBConfigM.
Definition GetConfig (db : DatabaseInstance) : DBConfig := config db.
End DBConfigM.

(** The storage manager is built from the database path and the read-only flag. *)
Record SingleFileStorageManager : Type := {
  path : string;
  read_only : bool
}.

(** What the classes declared outside this file do when called: the storage
    manager, the catalog loader, [Exception::UncaughtException] and
    [FileSystem::ExtractBaseName]. A call that can throw yields [inl]. *)
Record Collaborators : Type := {
  UncaughtException : bool;
  InMemory : SingleFileStorageManager → bool;
  CreateCheckpoint : SingleFileStorageManager → bool → Exn + unit;
  StorageInitialize : SingleFileStorageManager → Exn + unit;
  CatalogInitialize : Catalog.t → bool → Exn + unit;
  ExtractBaseName : string → string
}.

Module AttachedDatabase.

Record t : Type := {
  db : DatabaseInstance;
  name : string;
  storage : SingleFileStorageManager;
  catalog : Catalog.t;
  transaction_manager : TransactionManager.t
}.

Section Methods.
Context (env : Collaborators).

(** [string AttachedDatabase::ExtractDatabaseName(const string &dbpath)] *)
Definition ExtractDatabaseName (dbpath : string) : string :=
  if bool_decide (dbpath = "") || bool_decide (dbpath = ":memory:")
  then "memory"
  else ExtractBaseName env dbpath.

(** [AttachedDatabase::AttachedDatabase(DatabaseInstance &db)] *)
Definition create (db_p : DatabaseInstance) : t :=
  let config := DBConfigM.GetConfig db_p in
  {| db := db_p;
     name := ExtractDatabaseName (database_path (options config));
     storage := {| path := database_path (options config);
                   read_only := bool_decide (access_mode (options config) = READ_ONLY) |};
     catalog := Catalog.empty;
     transaction_manager := TransactionManager.create |}.

(** [AttachedDatabase::~AttachedDatabase()]: the early [return]s become the
    branches that do nothing more. *)
Definition destroy (this : t) : Eff unit :=
  if UncaughtException env then mret ()
  else
    try_catch
      (in_memory ← call EvInMemory (inr (InMemory env (storage this)));
       if negb in_memory then
         let config := DBConfigM.GetConfig (db this) in
         if negb (checkpoint_on_shutdown (options config)) then mret ()
         else call (EvCreateCheckpoint true) (CreateCheckpoint env (storage this) true)
       else mret ())
      (λ _, mret ()).

(** [void AttachedDatabase::Initialize()] *)
Definition Initialize (this : t) : Eff unit :=
  call (EvCatalogInitialize false) (CatalogInitialize env (catalog this) false) ;;
  call EvStorageInitialize (StorageInitialize env (storage this)).

Definition GetStorageManager (this : t) : SingleFileStorageManager := storage this.
Definition GetCatalog (this : t) : Catalog.t := catalog this.
Definition GetTransactionManager (this : t) : TransactionManager.t :=
  transaction_manager this.

End Methods.

End AttachedDatabase.

(** A base-name function that keeps the text after the last slash, for the
    sample environments below. *)
Fixpoint after_last_slash (s acc : string) : string :=
  match s with
  | EmptyString => acc
  | String c rest =>
      if bool_decide (c = Ascii.ascii_of_nat 47) then after_last_slash rest rest
      else after_last_slash rest acc
  end.

(** A sample environment, given whether a failure is in flight, whether the
    store is in memory, and what the checkpoint and the catalog loader do. *)
Definition sample_env (uncaught in_mem : bool) (ckpt : Exn + unit)
    (cat_init : Exn + unit) : Collaborators :=
  {| UncaughtException := uncaught;
     InMemory := λ _, in_mem;
     CreateCheckpoint := λ _ _, ckpt;
     StorageInitialize := λ _, inr ();
     CatalogInitialize := λ _ _, cat_init;
     ExtractBaseName := λ s, after_last_slash s s |}.

Definition sample_instance (p : string) (ckpt : bool) : DatabaseInstance :=
  {| config := {| options := {| database_path := p; access_mode := READ_WRITE;
                                checkpoint_on_shutdown := ckpt |} |} |}.

(** ** The SQL front end, an external collaborator *)

(** Parsing, planning, casting and plan execution are consumed as an opaque
    interface: [parse] yields the names a statement references, its parameter
    types and its plan, or a syntax error; [try_cast] is the host type
    system's implicit cast; [run_plan] evaluates a plan on parameter values. *)
Class FrontEnd : Type := {
  Value : Type;
  LogicalType : Type;
  Plan : Type;
  QueryResult : Type;
  parse : string → string + (list string * list LogicalType * Plan);
  try_cast : Value → LogicalType → option Value;
  run_plan : Plan → list Value → QueryResult
}.

(** *** Counting top-level statements *)

Inductive LexState : Type :=
| Plain
| InString
| InIdentifier.

Definition is_blank (c : Ascii.ascii) : bool :=
  bool_decide (c = Ascii.ascii_of_nat 32) || bool_decide (c = Ascii.ascii_of_nat 9)
  || bool_decide (c = Ascii.ascii_of_nat 10) || bool_decide (c = Ascii.ascii_of_nat 13).

Definition semicolon : Ascii.ascii := Ascii.ascii_of_nat 59.
Definition single_quote : Ascii.ascii := Ascii.ascii_of_nat 39.
Definition double_quote : Ascii.ascii := Ascii.ascii_of_nat 34.

(** Modelled from the spec: the statement splitter of [Prepare] step 1 (the
    parser is not among the sources). A delimiter separates statements only outside
    string and identifier literals; [fresh] says that no statement text was
    seen since the last delimiter; the result is the number of statements. *)
Fixpoint scan_statements (s : string) (st : LexState) (fresh : bool) : nat :=
  match s with
  | EmptyString => 0
  | String c rest =>
      match st with
      | InString =>
          scan_statements rest
            (if bool_decide (c = single_quote) then Plain else InString) false
      | InIdentifier =>
          scan_statements rest
            (if bool_decide (c = double_quote) then Plain else InIdentifier) false
      | Plain =>
          if bool_decide (c = semicolon) then scan_statements rest Plain true
          else if is_blank c then scan_statements rest Plain fresh
          else (if fresh then 1 else 0) +
               scan_statements rest
                 (if bool_decide (c = single_quote) then InString
                  else if bool_decide (c = double_quote) then InIdentifier
                  else Plain) false
      end
  end.

Definition count_statements (sql : string) : nat := scan_statements sql Plain true.

(** ** Prepared statements *)

Module PreparedStatement.

(** Modelled from the spec: the bound plan with the catalog entries binding
    resolved, recorded as its dependencies. *)
Record BoundPlan `{FrontEnd} : Type := {
  plan : Plan;
  dependencies : list Catalog.EntryRef
}.

(** Modelled from the spec: the PreparedStatement of section 3 (class not
    among the sources). [owning_connection] is the weak reference: a handle that is
    looked up among the live connections at every use. *)
Record t `{FrontEnd} : Type := {
  name : option string;
  sql_text : string;
  parameter_count : nat;
  parameter_types : list LogicalType;
  bound_plan : option BoundPlan;
  owning_connection : nat;
  creation_transaction_id : option nat;
  success : bool;
  error : option string
}.

Definition referenced `{FrontEnd} (p : t) : list Catalog.EntryRef :=
  match bound_plan p with
  | Some bp => dependencies bp
  | None => []
  end.

(** Modelled from the spec: the statement [Prepare] returns on a parse or bind
    error: [success = false] and a populated [error]. *)
Definition failed `{FrontEnd} (c : nat) (sql : string) (msg : string) : t :=
  {| name := None; sql_text := sql; parameter_count := 0; parameter_types := [];
     bound_plan := None; owning_connection := c; creation_transaction_id := None;
     success := false; error := Some msg |}.

End PreparedStatement.

(** ** Connections *)

Module Connection.

(** Modelled from the spec: the Connection of section 3 (class not among
    the sources). [database] is the shared reference to the attachment;
    [prepare_count] numbers the auto-generated statement names. *)
Record t `{FrontEnd} : Type := {
  database : nat;
  current_transaction : option Transaction.t;
  owned_prepared_statements : gmap string PreparedStatement.t;
  prepare_count : nat
}.

Definition set_transaction `{FrontEnd} (con : t) (tx : option Transaction.t) : t :=
  {| database := database con; current_transaction := tx;
     owned_prepared_statements := owned_prepared_statements con;
     prepare_count := prepare_count con |}.

Definition set_statements `{FrontEnd} (con : t)
    (reg : gmap string PreparedStatement.t) (n : nat) : t :=
  {| database := database con; current_transaction := current_transaction con;
     owned_prepared_statements := reg; prepare_count := n |}.

Definition transaction_id `{FrontEnd} (con : t) : option nat :=
  Transaction.id <$> current_transaction con.

End Connection.

(** ** The world: live attachments and live connections *)

(** Handles are numbers that are never handed out twice; a destroyed object is
    absent from its map, so a stale handle resolves to nothing. *)
Record World `{FrontEnd} : Type := {
  databases : gmap nat AttachedDatabase.t;
  connections : gmap nat Connection.t;
  next_database_id : nat;
  next_connection_id : nat
}.

Definition initial_world `{FrontEnd} : World :=
  {| databases := ∅; connections := ∅; next_database_id := 0; next_connection_id := 0 |}.

Definition set_database `{FrontEnd} (w : World) (d : nat) (adb : AttachedDatabase.t) : World :=
  {| databases := <[d := adb]> (databases w); connections := connections w;
     next_database_id := next_database_id w; next_connection_id := next_connection_id w |}.

Definition set_connection `{FrontEnd} (w : World) (c : nat) (con : Connection.t) : World :=
  {| databases := databases w; connections := <[c := con]> (connections w);
     next_database_id := next_database_id w; next_connection_id := next_connection_id w |}.

Definition with_store (adb : AttachedDatabase.t) (cat : Catalog.t)
    (tm : TransactionManager.t) : AttachedDatabase.t :=
  {| AttachedDatabase.db := AttachedDatabase.db adb;
     AttachedDatabase.name := AttachedDatabase.name adb;
     AttachedDatabase.storage := AttachedDatabase.storage adb;
     AttachedDatabase.catalog := cat;
     AttachedDatabase.transaction_manager := tm |}.

(** A connection handle together with the attachment behind it, when both are
    still alive. *)
Definition resolve `{FrontEnd} (w : World) (c : nat)
    : option (Connection.t * AttachedDatabase.t) :=
  con ← connections w !! c;
  adb ← databases w !! Connection.database con;
  Some (con, adb).

(** The object behind a handle, for states in which the handle resolves. *)
Definition connection_at `{FrontEnd} (w : World) (c : nat) : Connection.t :=
  default {| Connection.database := 0; Connection.current_transaction := None;
             Connection.owned_prepared_statements := ∅; Connection.prepare_count := 0 |}
          (connections w !! c).

Definition database_at `{FrontEnd} (w : World) (d : nat) : AttachedDatabase.t :=
  default {| AttachedDatabase.db :=
               {| config := {| options := {| database_path := ""; access_mode := READ_WRITE;
                                             checkpoint_on_shutdown := false |} |} |};
             AttachedDatabase.name := "";
             AttachedDatabase.storage := {| path := ""; read_only := false |};
             AttachedDatabase.catalog := Catalog.empty;
             AttachedDatabase.transaction_manager := TransactionManager.create |}
          (databases w !! d).

(** ** Operations of the client API *)

Section Operations.
Context `{FrontEnd} (env : Collaborators).

(** Modelled from the spec: [Attach(path, mode)] of sections 4.1 and 6: the
    attachment is constructed and initialized; when initialization fails it
    is discarded and never published. *)
Definition Attach (w : World) (dbi : DatabaseInstance) : World * Result nat :=
  let adb := AttachedDatabase.create env dbi in
  match outcome (AttachedDatabase.Initialize env adb) with
  | Thrown e => (w, Err (AttachError e))
  | Returned _ =>
      ({| databases := <[next_database_id w := adb]> (databases w);
          connections := connections w;
          next_database_id := S (next_database_id w);
          next_connection_id := next_connection_id w |},
       Ok (next_database_id w))
  end.

(** Modelled from the spec: the last database-level handle is released
    ([db.reset()] in the test): the attachment is gone for everyone. *)
Definition DestroyDatabase (w : World) (d : nat) : World :=
  {| databases := delete d (databases w); connections := connections w;
     next_database_id := next_database_id w;
     next_connection_id := next_connection_id w |}.

(** Modelled from the spec: a new Connection bound to one live attachment. *)
Definition Connect (w : World) (d : nat) : World * option nat :=
  match databases w !! d with
  | None => (w, None)
  | Some _ =>
      ({| databases := databases w;
          connections :=
            <[next_connection_id w :=
                {| Connection.database := d; Connection.current_transaction := None;
                   Connection.owned_prepared_statements := ∅;
                   Connection.prepare_count := 0 |}]> (connections w);
          next_database_id := next_database_id w;
          next_connection_id := S (next_connection_id w) |},
       Some (next_connection_id w))
  end.

(** The connection keeps its transaction only while it is still Active. *)
Definition still_active (tx : Transaction.t) : option Transaction.t :=
  match Transaction.status tx with
  | Active => Some tx
  | _ => None
  end.

(** Modelled from the spec: Connection destruction: an Active transaction is
    rolled back, then the connection disappears, and with it the target of
    the weak reference of every statement it owns. *)
Definition DestroyConnection (w : World) (c : nat) : World :=
  match connections w !! c with
  | None => w
  | Some con =>
      let w1 :=
        match Connection.current_transaction con, databases w !! Connection.database con with
        | Some tx, Some adb =>
            let '(tm, cat, _, _) :=
              TransactionManager.Rollback (AttachedDatabase.transaction_manager adb)
                (AttachedDatabase.catalog adb) tx in
            set_database w (Connection.database con) (with_store adb cat tm)
        | _, _ => w
        end in
      {| databases := databases w1; connections := delete c (connections w1);
         next_database_id := next_database_id w1;
         next_connection_id := next_connection_id w1 |}
  end.

(** Modelled from the spec: [Connection::Begin]; nested transactions are an
    error. *)
Definition Begin (w : World) (c : nat) : World * Result unit :=
  match resolve w c with
  | None => (w, Err InvalidatedConnectionError)
  | Some (con, adb) =>
      match Connection.current_transaction con with
      | Some _ => (w, Err TransactionStateError)
      | None =>
          let '(tm, tx) := TransactionManager.Begin (AttachedDatabase.transaction_manager adb) in
          (set_connection
             (set_database w (Connection.database con)
                (with_store adb (AttachedDatabase.catalog adb) tm))
             c (Connection.set_transaction con (Some tx)),
           Ok ())
      end
  end.

Definition finish (w : World) (c : nat) (con : Connection.t) (adb : AttachedDatabase.t)
    (r : TransactionManager.t * Catalog.t * Transaction.t * Result unit)
    : World * Result unit :=
  let '(tm, cat, tx, res) := r in
  (set_connection
     (set_database w (Connection.database con) (with_store adb cat tm))
     c (Connection.set_transaction con (still_active tx)),
   res).

(** Modelled from the spec: [Connection::Commit]; [persisted] tells whether
    the storage layer managed to persist the changes. *)
Definition Commit (w : World) (c : nat) (persisted : bool) : World * Result unit :=
  match resolve w c with
  | None => (w, Err InvalidatedConnectionError)
  | Some (con, adb) =>
      match Connection.current_transaction con with
      | None => (w, Err TransactionStateError)
      | Some tx =>
          finish w c con adb
            (TransactionManager.Commit (AttachedDatabase.transaction_manager adb)
               (AttachedDatabase.catalog adb) tx persisted)
      end
  end.

(** Modelled from the spec: [Connection::Rollback]. *)
Definition Rollback (w : World) (c : nat) : World * Result unit :=
  match resolve w c with
  | None => (w, Err InvalidatedConnectionError)
  | Some (con, adb) =>
      match Connection.current_transaction con with
      | None => (w, Err TransactionStateError)
      | Some tx =>
          finish w c con adb
            (TransactionManager.Rollback (AttachedDatabase.transaction_manager adb)
               (AttachedDatabase.catalog adb) tx)
      end
  end.

(** Modelled from the spec: a schema-changing statement ([CREATE TABLE] in the
    test) run on a connection: inside the open transaction, or inside an
    implicit one that commits on success and rolls back on failure. *)
Definition CreateEntry (w : World) (c : nat) (nm : string) (k : CatalogType)
    (persisted : bool) : World * Result Catalog.EntryRef :=
  match resolve w c with
  | None => (w, Err InvalidatedConnectionError)
  | Some (con, adb) =>
      let tm := AttachedDatabase.transaction_manager adb in
      let cat := AttachedDatabase.catalog adb in
      match Connection.current_transaction con with
      | Some tx =>
          match Catalog.CreateEntry cat (Transaction.id tx) nm k with
          | (cat1, Ok r) =>
              (set_connection
                 (set_database w (Connection.database con) (with_store adb cat1 tm))
                 c (Connection.set_transaction con (Some (Transaction.record_change tx r))),
               Ok r)
          | (_, Err e) => (w, Err e)
          end
      | None =>
          let '(tm1, tx) := TransactionManager.Begin tm in
          match Catalog.CreateEntry cat (Transaction.id tx) nm k with
          | (cat1, Ok r) =>
              let '(tm2, cat2, _, res) :=
                TransactionManager.Commit tm1 cat1 (Transaction.record_change tx r) persisted in
              (set_database w (Connection.database con) (with_store adb cat2 tm2),
               match res with Ok _ => Ok r | Err e => Err e end)
          | (cat1, Err e) =>
              let '(tm2, cat2, _, _) := TransactionManager.Rollback tm1 cat1 tx in
              (set_database w (Connection.database con) (with_store adb cat2 tm2), Err e)
          end
      end
  end.

(** Modelled from the spec: binding resolves every referenced catalog object
    against the state visible to the connection's transaction. *)
Fixpoint bind_references (cat : Catalog.t) (as_of_tx : option nat) (refs : list string)
    : Result (list Catalog.EntryRef) :=
  match refs with
  | [] => Ok []
  | nm :: rest =>
      match Catalog.Resolve cat nm as_of_tx with
      | Err e => Err e
      | Ok r =>
          match bind_references cat as_of_tx rest with
          | Err e => Err e
          | Ok rs => Ok (r :: rs)
          end
      end
  end.

Definition generated_name (n : nat) : string :=
  "____duckdb_internal_prepare_" +:+ pretty n.

(** Modelled from the spec: [Connection::Prepare] (section 4.3, steps 1-4);
    it never fails as a call: every error is captured in the statement. *)
Definition Prepare (w : World) (c : nat) (nm : option string) (sql : string)
    : World * PreparedStatement.t :=
  match resolve w c with
  | None => (w, PreparedStatement.failed c sql "connection or database has been destroyed")
  | Some (con, adb) =>
      if negb (bool_decide (count_statements sql = 1)) then
        (w, PreparedStatement.failed c sql "expected exactly one statement")
      else
        match parse sql with
        | inl msg => (w, PreparedStatement.failed c sql msg)
        | inr (refs, tys, pl) =>
            match bind_references (AttachedDatabase.catalog adb)
                    (Connection.transaction_id con) refs with
            | Err _ => (w, PreparedStatement.failed c sql "unresolved catalog reference")
            | Ok deps =>
                let nm' := default (generated_name (Connection.prepare_count con)) nm in
                let p :=
                  {| PreparedStatement.name := Some nm';
                     PreparedStatement.sql_text := sql;
                     PreparedStatement.parameter_count := length tys;
                     PreparedStatement.parameter_types := tys;
                     PreparedStatement.bound_plan :=
                       Some {| PreparedStatement.plan := pl;
                               PreparedStatement.dependencies := deps |};
                     PreparedStatement.owning_connection := c;
                     PreparedStatement.creation_transaction_id :=
                       Connection.transaction_id con;
                     PreparedStatement.success := true;
                     PreparedStatement.error := None |} in
                (set_connection w c
                   (Connection.set_statements con
                      (<[nm' := p]> (Connection.owned_prepared_statements con))
                      (S (Connection.prepare_count con))),
                 p)
            end
        end
  end.

(** Modelled from the spec: the transition Ready -> Invalidated on the
    rollback of an ancestor (section 4.4): the transaction that step 4 of
    [Prepare] recorded in [creation_transaction_id] ended RolledBack. A
    statement created outside an explicit transaction records none and is
    not affected by a rollback (autocommit rule of section 4.2). *)
Definition creation_rolled_back (adb : AttachedDatabase.t) (p : PreparedStatement.t)
    : bool :=
  match PreparedStatement.creation_transaction_id p with
  | None => false
  | Some t =>
      bool_decide
        (t ∈ TransactionManager.rolled_back_transactions
               (AttachedDatabase.transaction_manager adb))
  end.

(** Modelled from the spec: the validity predicate of section 3: the owning
    connection resolves, its database is live, and no referenced catalog
    entry is invalidated; and, as sections 4.2, 4.4 and 8 and the test
    ("if we rollback our prepared statements are invalidated") have it, the
    transaction the statement was created under has not been rolled back.
    Section 9 names the two matching rules, by plan dependency and by
    creating transaction; a statement is rejected here under either. *)
Definition valid (w : World) (p : PreparedStatement.t) : bool :=
  match resolve w (PreparedStatement.owning_connection p) with
  | None => false
  | Some (_, adb) =>
      forallb (λ r, negb (Catalog.is_invalidated (AttachedDatabase.catalog adb) r))
        (PreparedStatement.referenced p)
      && negb (creation_rolled_back adb p)
  end.

(** Modelled from the spec: [Execute] step 2, the cast of each argument to
    its declared parameter type. *)
Fixpoint cast_arguments (args : list Value) (tys : list LogicalType)
    : option (list Value) :=
  match args, tys with
  | [], [] => Some []
  | a :: args', ty :: tys' =>
      match try_cast a ty with
      | None => None
      | Some v =>
          match cast_arguments args' tys' with
          | None => None
          | Some vs => Some (v :: vs)
          end
      end
  | _, _ => None
  end.

(** Modelled from the spec: [Execute] step 4: the plan runs in the current
    transaction, or in an implicit one opened and committed around it. *)
Definition run_bound_plan (w : World) (p : PreparedStatement.t) (vals : list Value)
    : World * Result QueryResult :=
  match resolve w (PreparedStatement.owning_connection p), PreparedStatement.bound_plan p with
  | Some (con, adb), Some bp =>
      match Connection.current_transaction con with
      | Some _ => (w, Ok (run_plan (PreparedStatement.plan bp) vals))
      | None =>
          let '(tm1, tx) := TransactionManager.Begin (AttachedDatabase.transaction_manager adb) in
          let '(tm2, cat2, _, _) :=
            TransactionManager.Commit tm1 (AttachedDatabase.catalog adb) tx true in
          (set_database w (Connection.database con) (with_store adb cat2 tm2),
           Ok (run_plan (PreparedStatement.plan bp) vals))
      end
  | _, _ => (w, Err InvalidatedStatementError)
  end.

(** Modelled from the spec: [PreparedStatement::Execute] (section 4.3): a
    Failed statement repeats its compile-time error at once; otherwise the
    argument count, the argument types and the validity predicate are checked
    in this order before the plan runs. *)
Definition Execute (w : World) (p : PreparedStatement.t) (args : list Value)
    : World * Result QueryResult :=
  if negb (PreparedStatement.success p) then
    (w, Err (ParseOrBindError (default "" (PreparedStatement.error p))))
  else if negb (bool_decide (length args = PreparedStatement.parameter_count p)) then
    (w, Err (ParameterError WrongArity))
  else
    match cast_arguments args (PreparedStatement.parameter_types p) with
    | None => (w, Err (ParameterError NonCoercible))
    | Some vals =>
        if negb (valid w p) then (w, Err InvalidatedStatementError)
        else run_bound_plan w p vals
    end.

(** Modelled from the spec: named re-execution [EXECUTE name(args...)]: the
    statement is looked up by name in the connection's registry. *)
Definition ExecuteNamed (w : World) (c : nat) (nm : string) (args : list Value)
    : World * Result QueryResult :=
  match connections w !! c with
  | None => (w, Err InvalidatedConnectionError)
  | Some con =>
      match Connection.owned_prepared_statements con !! nm with
      | None => (w, Err (NotFoundError nm))
      | Some p => Execute w p args
      end
  end.

(** Modelled from the spec: explicit release of a statement name. *)
Definition ReleaseStatement (w : World) (c : nat) (nm : string) : World :=
  match connections w !! c with
  | None => w
  | Some con =>
      set_connection w c
        (Connection.set_statements con
           (delete nm (Connection.owned_prepared_statements con))
           (Connection.prepare_count con))
  end.

(** Modelled from the spec: the statement destructor ([prepare.reset()]): the
    name leaves the registry of the owning connection if that one is alive. *)
Definition DropStatement (w : World) (p : PreparedStatement.t) : World :=
  match PreparedStatement.name p with
  | None => w
  | Some nm => ReleaseStatement w (PreparedStatement.owning_connection p) nm
  end.

(** *** Client programs *)

Inductive Command : Type :=
| CmdAttach (dbi : DatabaseInstance)
| CmdDestroyDatabase (d : nat)
| CmdConnect (d : nat)
| CmdDestroyConnection (c : nat)
| CmdBegin (c : nat)
| CmdCommit (c : nat) (persisted : bool)
| CmdRollback (c : nat)
| CmdCreateEntry (c : nat) (nm : string) (k : CatalogType) (persisted : bool)
| CmdPrepare (c : nat) (nm : option string) (sql : string)
| CmdExecute (p : PreparedStatement.t) (args : list Value)
| CmdExecuteNamed (c : nat) (nm : string) (args : list Value)
| CmdReleaseStatement (c : nat) (nm : string)
| CmdDropStatement (p : PreparedStatement.t).

Definition step (w : World) (cmd : Command) : World :=
  match cmd with
  | CmdAttach dbi => (Attach w dbi).1
  | CmdDestroyDatabase d => DestroyDatabase w d
  | CmdConnect d => (Connect w d).1
  | CmdDestroyConnection c => DestroyConnection w c
  | CmdBegin c => (Begin w c).1
  | CmdCommit c persisted => (Commit w c persisted).1
  | CmdRollback c => (Rollback w c).1
  | CmdCreateEntry c nm k persisted => (CreateEntry w c nm k persisted).1
  | CmdPrepare c nm sql => (Prepare w c nm sql).1
  | CmdExecute p args => (Execute w p args).1
  | CmdExecuteNamed c nm args => (ExecuteNamed w c nm args).1
  | CmdReleaseStatement c nm => ReleaseStatement w c nm
  | CmdDropStatement p => DropStatement w p
  end.

Definition run (w : World) (cmds : list Command) : World := foldl step w cmds.

End Operations.

(** ** A small front end, to run the scenarios of the test file *)

Inductive ToyValue : Type :=
| VInteger (z : Z)
| VVarchar (s : string).

Inductive ToyType : Type :=
| TINTEGER
| TVARCHAR.

Inductive ToyPlan : Type :=
| PlanAdd
| PlanCountEq
| PlanCountGt
| PlanConst.

Definition toy_parse (sql : string) : string + (list string * list ToyType * ToyPlan) :=
  if bool_decide (sql = "SELECT $1::INTEGER+$2::INTEGER") then
    inr ([], [TINTEGER; TINTEGER], PlanAdd)
  else if bool_decide (sql = "SELECT COUNT(*) FROM a WHERE i=$1") then
    inr (["a"], [TINTEGER], PlanCountEq)
  else if bool_decide (sql = "SELECT COUNT(*) FROM a WHERE i>$1") then
    inr (["a"], [TINTEGER], PlanCountGt)
  else if bool_decide (sql = "SELECT 42") then
    inr ([], [], PlanConst)
  else inl "syntax error".

Definition toy_cast (v : ToyValue) (ty : ToyType) : option ToyValue :=
  match v, ty with
  | VInteger z, TINTEGER => Some (VInteger z)
  | VInteger z, TVARCHAR => Some (VVarchar (pretty z))
  | VVarchar s, TVARCHAR => Some (VVarchar s)
  | VVarchar _, TINTEGER => None
  end.

Definition toy_rows : list Z := [11; 12; 13]%Z.

Definition toy_run (pl : ToyPlan) (vals : list ToyValue) : list Z :=
  match pl, vals with
  | PlanAdd, [VInteger x; VInteger y] => [(x + y)%Z]
  | PlanCountEq, [VInteger x] =>
      [Z.of_nat (length (List.filter (λ i, bool_decide (i = x)) toy_rows))]
  | PlanCountGt, [VInteger x] =>
      [Z.of_nat (length (List.filter (λ i, bool_decide (x < i)%Z) toy_rows))]
  | PlanConst, [] => [42%Z]
  | _, _ => []
  end.

Definition toy_front_end : FrontEnd :=
  {| Value := ToyValue; LogicalType := ToyType; Plan := ToyPlan; QueryResult := list Z;
     parse := toy_parse; try_cast := toy_cast; run_plan := toy_run |}.

Definition toy_env : Collaborators := sample_env false true (inr ()) (inr ()).

(** The world after [DuckDB db(nullptr); Connection con(db);]: attachment 0
    in memory, connection 0 bound to it. *)
Definition toy_world : @World toy_front_end :=
  run toy_env initial_world [CmdAttach (sample_instance "" true); CmdConnect 0].

(** *** Data of the replayed scenarios *)

Section ScenarioData.
#[local] Existing Instance toy_front_end.

Definition setup : list Command := [CmdAttach (sample_instance "" true); CmdConnect 0].

Definition add_sql : string := "SELECT $1::INTEGER+$2::INTEGER".
Definition count_sql : string := "SELECT COUNT(*) FROM a WHERE i=$1".
Definition two_statements : string := "SELECT COUNT(*) FROM a WHERE i=$1; SELECT 42+$2;".

(** [con.Prepare] of the addition, outside any transaction. *)
Definition add_statement : PreparedStatement.t := (Prepare toy_world 0 None add_sql).2.

Definition in_transaction : list Command :=
  setup ++ [CmdBegin 0; CmdCreateEntry 0 "a" TABLE_ENTRY true].

(** Statements prepared after [BEGIN TRANSACTION; CREATE TABLE a]. *)
Definition count_statement : PreparedStatement.t :=
  (Prepare (run toy_env initial_world in_transaction) 0 None count_sql).2.

Definition constant_statement : PreparedStatement.t :=
  (Prepare (run toy_env initial_world in_transaction) 0 None "SELECT 42").2.

Definition failed_statement : PreparedStatement.t :=
  (Prepare toy_world 0 None two_statements).2.


Definition table_a : CatalogEntry.t :=
  {| CatalogEntry.name := "a"; CatalogEntry.kind := TABLE_ENTRY;
     CatalogEntry.owning_transaction_id := Some 0; CatalogEntry.invalidated := false |}.

End ScenarioData.

(** ** Notions used to state the properties *)

Section Notions.
Context `{FrontEnd}.

(** The error [Execute] reports for a statement that is no longer valid: the
    checks that come before the validity check keep their precedence. *)
Definition rejection (p : PreparedStatement.t) (args : list Value) : Error :=
  if negb (PreparedStatement.success p) then
    ParseOrBindError (default "" (PreparedStatement.error p))
  else if negb (bool_decide (length args = PreparedStatement.parameter_count p)) then
    ParameterError WrongArity
  else
    match cast_arguments args (PreparedStatement.parameter_types p) with
    | None => ParameterError NonCoercible
    | Some _ => InvalidatedStatementError
    end.

(** Handles in use are below the next handle to hand out, and a transaction
    kept by a connection is Active. *)
Definition well_formed (w : World) : Prop :=
  (∀ d adb, databases w !! d = Some adb → d < next_database_id w)
  ∧ (∀ c con, connections w !! c = Some con →
       c < next_connection_id w
       ∧ Connection.database con < next_database_id w
       ∧ ∀ tx, Connection.current_transaction con = Some tx →
               Transaction.status tx = Active).

(** Every entry flagged in [cat] is still there and still flagged in [cat']. *)
Definition flags_kept (cat cat' : Catalog.t) : Prop :=
  ∀ r e, Catalog.entries cat !! r = Some e → CatalogEntry.invalidated e = true →
    ∃ e', Catalog.entries cat' !! r = Some e' ∧ CatalogEntry.invalidated e' = true.

(** [adb'] is a later state of the attachment [adb]: the invalidation flags
    and the record of rolled-back transactions are kept. *)
Definition store_kept (adb adb' : AttachedDatabase.t) : Prop :=
  flags_kept (AttachedDatabase.catalog adb) (AttachedDatabase.catalog adb')
  ∧ TransactionManager.rolled_back_transactions (AttachedDatabase.transaction_manager adb)
    ⊆ TransactionManager.rolled_back_transactions
        (AttachedDatabase.transaction_manager adb').

(** [w'] is a later state of [w]: no handle of [w] is reused, a surviving
    connection is bound to the same database, and a surviving database has
    kept its invalidation flags and its rolled-back transactions. *)
Definition evolves (w w' : World) : Prop :=
  next_connection_id w ≤ next_connection_id w'
  ∧ next_database_id w ≤ next_database_id w'
  ∧ (∀ c con', c < next_connection_id w → connections w' !! c = Some con' →
       ∃ con, connections w !! c = Some con
              ∧ Connection.database con = Connection.database con')
  ∧ (∀ d adb', d < next_database_id w → databases w' !! d = Some adb' →
       ∃ adb, databases w !! d = Some adb ∧ store_kept adb adb').

(** The statement with owner [c], dependencies [refs] and creating
    transaction [created] cannot become valid again: if [c] still resolves,
    it is bound to [d], and if [d] is still live, one of [refs] is flagged
    there or [created] is recorded there as rolled back. *)
Definition doomed (w : World) (c d : nat) (refs : list Catalog.EntryRef)
    (created : option nat) : Prop :=
  c < next_connection_id w
  ∧ d < next_database_id w
  ∧ (∀ con, connections w !! c = Some con → Connection.database con = d)
  ∧ (∀ con adb, connections w !! c = Some con → databases w !! d = Some adb →
       (∃ r e, r ∈ refs ∧ Catalog.entries (AttachedDatabase.catalog adb) !! r = Some e
               ∧ CatalogEntry.invalidated e = true)
       ∨ (∃ t, created = Some t
               ∧ t ∈ TransactionManager.rolled_back_transactions
                       (AttachedDatabase.transaction_manager adb))).

Definition prepares_on (c : nat) (cmd : Command) : bool :=
  match cmd with
  | CmdPrepare c' _ _ => bool_decide (c' = c)
  | _ => false
  end.

(** No statement named [nm] is registered on connection [c]. *)
Definition unregistered (w : World) (c : nat) (nm : string) : Prop :=
  ∀ con, connections w !! c = Some con →
         Connection.owned_prepared_statements con !! nm = None.

End Notions.

(** ** extension/icu/icu-extension.cpp *)

Module ICU.

(** The exceptions the extension throws. *)
Inductive Throwable : Type :=
| Exception (msg : string)
| InternalException (msg : string)
| NotImplementedException (msg : string).

Inductive LogicalTypeId : Type :=
| VARCHAR
| INTERVAL
| BOOLEAN.

(** The values the extension builds: [Value(string)], [Value::INTERVAL] (in
    microseconds) and [Value(bool)]. *)
Inductive Value : Type :=
| ValueVarchar (s : string)
| ValueInterval (micros : Z)
| ValueBoolean (b : bool).

Definition type_of (v : Value) : LogicalTypeId :=
  match v with
  | ValueVarchar _ => VARCHAR
  | ValueInterval _ => INTERVAL
  | ValueBoolean _ => BOOLEAN
  end.

(** The result of [EvaluateScalar(...).CastAs(LogicalType::VARCHAR)]. *)
Record VarcharValue : Type := {
  is_null : bool;
  str_value : string
}.

(** [unique_ptr<Expression>]: an expression of some class, with its virtual
    methods. *)
Record AnyExpression : Type := {
  expression_class : Type;
  expression_methods : Planner.Expression expression_class;
  expression : expression_class
}.

Definition IsFoldable (e : AnyExpression) : bool :=
  @Planner.IsFoldable _ (expression_methods e) (expression e).

(** One result of [StringEnumeration::snext]: a failure status or the next
    identifier; the end of the list is the null pointer. *)
Inductive SNext : Type :=
| SNextFailure
| SNextId (long_id : string).

(** What the ICU library and the DuckDB classes declared elsewhere do. A
    buffer is the list of its bytes; [createInstance l c] is
    [Collator::createInstance(Locale(l.c_str(), c.c_str()), status)], [None]
    on a failure status; [getSortKey c input buffer capacity] yields the size
    it reports and the buffer afterwards; [uninitialized n] is what
    [new char[n]] holds; [indexOf s c] is [s.indexOf(c)], negative when [c]
    does not occur; [D_ASSERT_checks] tells whether the macro [D_ASSERT]
    checks its condition in this build or expands to nothing. *)
Class Library : Type := {
  Collator : Type;
  UDate : Type;
  D_ASSERT_checks : bool;
  createInstance : string → string → option Collator;
  getSortKey : Collator → string → list nat → nat → nat * list nat;
  uninitialized : nat → list nat;
  Split : string → string → list string;
  Lower : string → string;
  EvaluateScalarAsVarchar : AnyExpression → Throwable + VarcharValue;
  countEquivalentIDs : string → nat;
  getEquivalentID : string → nat → string;
  indexOf : string → Ascii.ascii → Z;
  getOffset : string → UDate → option (Z * Z);
  STANDARD_VECTOR_SIZE : nat;
  MICROS_PER_MSEC : Z
}.

Section Extension.
Context `{Library}.

(** *** Bind data *)

Record IcuBindData : Type := {
  collator : Collator;
  language : string;
  country : string
}.

(** [IcuBindData(string language_p, string country_p)] *)
Definition IcuBindData_create (language_p country_p : string) : Throwable + IcuBindData :=
  match createInstance language_p country_p with
  | Some c => inr {| collator := c; language := language_p; country := country_p |}
  | None => inl (Exception "Failed to create ICU collator!")
  end.

(** [s.c_str()] converted back to a [string]: the characters before the
    first NUL. *)
Fixpoint c_str (s : string) : string :=
  match s with
  | EmptyString => EmptyString
  | String c rest =>
      if bool_decide (c = Ascii.zero) then EmptyString else String c (c_str rest)
  end.

(** [unique_ptr<FunctionData> Copy()]: the copy is constructed from
    [language.c_str()] and [country.c_str()]. *)
Definition Copy (this : IcuBindData) : Throwable + IcuBindData :=
  IcuBindData_create (c_str (language this)) (c_str (country this)).

(** The tail shared by the two bind functions: one or two splits. *)
Definition bind_splits (splits : list string) : Throwable + IcuBindData :=
  match splits with
  | [l] => IcuBindData_create l ""
  | [l; c] => IcuBindData_create l c
  | _ => inl (InternalException "Expected one or two splits")
  end.

(** [ICUCollateBind]: only the name of the bound function is used. *)
Definition ICUCollateBind (bound_function_name : string) : Throwable + IcuBindData :=
  bind_splits (Split bound_function_name "_").

(** [ICUSortKeyBind]: [None] stands for reading [arguments[1]] of a shorter
    vector. *)
Definition ICUSortKeyBind (arguments : list AnyExpression)
    : option (Throwable + IcuBindData) :=
  match arguments !! 1 with
  | None => None
  | Some arg =>
      if negb (IsFoldable arg) then
        Some (inl (NotImplementedException
          "ICU_SORT_KEY(VARCHAR, VARCHAR) with non-constant collation is not supported"))
      else
        match EvaluateScalarAsVarchar arg with
        | inl e => Some (inl e)
        | inr val =>
            if is_null val then
              Some (inl (NotImplementedException
                "ICU_SORT_KEY(VARCHAR, VARCHAR) expected a non-null collation"))
            else Some (bind_splits (Split (str_value val) "_"))
        end
  end.

(** *** Sort keys *)

(** [ICUGetSortKey]: the size reported, the buffer and its size afterwards. *)
Definition ICUGetSortKey (c : Collator) (input : string) (buffer : list nat)
    (buffer_size : nat) : nat * list nat * nat :=
  let '(string_size, buffer1) := getSortKey c input buffer buffer_size in
  if buffer_size <? string_size then
    let buffer2 := uninitialized string_size in
    let '(string_size', buffer3) := getSortKey c input buffer2 string_size in
    (string_size', buffer3, string_size)
  else (string_size, buffer1, buffer_size).

Definition HEX_TABLE : list Ascii.ascii := String.list_ascii_of_string "0123456789ABCDEF".

(** [uint8_t(buffer[i])] *)
Definition uint8 (c : nat) : nat := c mod 256.

Definition hex_digit (i : nat) : Ascii.ascii := nth i HEX_TABLE Ascii.zero.

(** The loop that fills [str_data]: positions [2i] and [2i+1] for
    [i = first .. first + count - 1]. [None] when the loop does not run to
    its end: it reads past the buffer, or [D_ASSERT(byte != 0)] is checked
    and fails. *)
Fixpoint hex_loop (buffer : list nat) (first count : nat) : option (list Ascii.ascii) :=
  match count with
  | 0 => Some []
  | S count' =>
      match buffer !! first with
      | None => None
      | Some b =>
          if D_ASSERT_checks && (uint8 b =? 0) then None
          else
            match hex_loop buffer (S first) count' with
            | None => None
            | Some rest =>
                Some (hex_digit (uint8 b / 16) :: hex_digit (uint8 b mod 16) :: rest)
            end
      end
  end.

(** The lambda of [ICUCollateFunction] on one input: the result string and
    the captured buffer afterwards. A reported size of 0 makes the unsigned
    bound [string_size - 1] wrap around: [None], as when the loop stops. *)
Definition collate_row (c : Collator) (state : list nat * nat) (input : string)
    : option (string * (list nat * nat)) :=
  let '(string_size, buffer, buffer_size) := ICUGetSortKey c input state.1 state.2 in
  if string_size =? 0 then None
  else
    match hex_loop buffer 0 (string_size - 1) with
    | None => None
    | Some chars => Some (String.string_of_list_ascii chars, (buffer, buffer_size))
    end.

(** [UnaryExecutor::Execute] runs the lambda on the rows in order; the
    buffer captured by reference is carried from row to row. *)
Fixpoint execute_rows (c : Collator) (state : list nat * nat) (inputs : list string)
    : option (list string * (list nat * nat)) :=
  match inputs with
  | [] => Some ([], state)
  | input :: rest =>
      match collate_row c state input with
      | None => None
      | Some (out, state') =>
          match execute_rows c state' rest with
          | None => None
          | Some (outs, state'') => Some (out :: outs, state'')
          end
      end
  end.

(** [ICUCollateFunction]: the buffer starts out null with size 0. *)
Definition ICUCollateFunction (info : IcuBindData) (inputs : list string)
    : option (list string) :=
  fst <$> execute_rows (collator info) ([], 0) inputs.

(** *** Time zones *)

Record ICUTimeZoneData : Type := {
  tzs : list SNext;
  now : UDate
}.

(** [ICUTimeZoneBind]: the column names and types after the call. *)
Definition ICUTimeZoneBind (return_types : list LogicalTypeId) (names : list string)
    : list LogicalTypeId * list string :=
  (return_types ++ [VARCHAR; VARCHAR; INTERVAL; BOOLEAN],
   names ++ ["name"; "abbrev"; "utc_offset"; "is_dst"]).

Definition slash : Ascii.ascii := Ascii.ascii_of_nat 47.

(** The loop over the equivalent identifiers, from [idx], [count] more. *)
Fixpoint first_without_slash (long_id : string) (idx count : nat) : option string :=
  match count with
  | 0 => None
  | S count' =>
      let eid := getEquivalentID long_id idx in
      if (indexOf eid slash <? 0)%Z then Some eid
      else first_without_slash long_id (S idx) count'
  end.

Definition short_id (long_id : string) : string :=
  default long_id (first_without_slash long_id 0 (countEquivalentIDs long_id)).

(** One row of the output chunk, columns 0 to 3. *)
Definition zone_row (long_id : string) (raw_offset_ms dst_offset_ms : Z) : list Value :=
  [ValueVarchar long_id;
   ValueVarchar (short_id long_id);
   ValueInterval (raw_offset_ms * MICROS_PER_MSEC);
   ValueBoolean (negb (dst_offset_ms =? 0)%Z)].

(** The [while (index < STANDARD_VECTOR_SIZE)] loop, with [room] the number
    of rows that still fit: the rows written and the enumeration left. *)
Fixpoint zone_loop (now_p : UDate) (room : nat) (zones : list SNext)
    : list (list Value) * list SNext :=
  match room with
  | 0 => ([], zones)
  | S room' =>
      match zones with
      | [] => ([], [])
      | SNextFailure :: rest => ([], rest)
      | SNextId long_id :: rest =>
          match getOffset long_id now_p with
          | None => ([], rest)
          | Some (raw_offset_ms, dst_offset_ms) =>
              let '(rows, remaining) := zone_loop now_p room' rest in
              (zone_row long_id raw_offset_ms dst_offset_ms :: rows, remaining)
          end
      end
  end.

(** [ICUTimeZoneFunction]: the operator state afterwards and the rows of the
    output chunk (its cardinality is their number). *)
Definition ICUTimeZoneFunction (data : ICUTimeZoneData)
    : ICUTimeZoneData * list (list Value) :=
  let '(rows, remaining) := zone_loop (now data) STANDARD_VECTOR_SIZE (tzs data) in
  ({| tzs := remaining; now := now data |}, rows).

(** The function called [calls] times in a row: the chunks it produced. *)
Fixpoint scan_chunks (calls : nat) (data : ICUTimeZoneData)
    : list (list (list Value)) * ICUTimeZoneData :=
  match calls with
  | 0 => ([], data)
  | S calls' =>
      let '(data', rows) := ICUTimeZoneFunction data in
      let '(chunks, data'') := scan_chunks calls' data' in
      (rows :: chunks, data'')
  end.

(** *** Loading the extension *)

Inductive BindFunction : Type :=
| BindICUCollate
| BindICUSortKey.

(** [ScalarFunction(name, arguments, return_type, function, has_side_effects,
    bind)]; the function is [ICUCollateFunction] in both uses. *)
Record ScalarFunction : Type := {
  name : string;
  arguments : list LogicalTypeId;
  return_type : LogicalTypeId;
  has_side_effects : bool;
  bind : BindFunction
}.

Definition GetICUFunction (collation : string) : ScalarFunction :=
  {| name := collation; arguments := [VARCHAR]; return_type := VARCHAR;
     has_side_effects := false; bind := BindICUCollate |}.

Inductive OnCreateConflict : Type :=
| ERROR_ON_CONFLICT
| IGNORE_ON_CONFLICT.

Record CreateCollationInfo : Type := {
  collation_name : string;
  function : ScalarFunction;
  combinable : bool;
  not_required_for_equality : bool;
  on_conflict : OnCreateConflict
}.

(** The calls [ICUExtension::Load] makes on its connection, on the catalog
    and on the configuration, once the connection is constructed. *)
Inductive Call : Type :=
| CallBeginTransaction
| CallCreateCollation (info : CreateCollationInfo)
| CallCreateFunction (f : ScalarFunction)
| CallAddExtensionOption (option_name description : string) (ty : LogicalTypeId)
| CallSetVariable (variable : string) (v : Value)
| CallCreateTableFunction (function_name : string)
| CallRegisterICUDatePartFunctions
| CallRegisterICUDateTruncFunctions
| CallCommit.

(** The body of the loop over the locales: the name of the collation. *)
Definition collation_of (locale : string * string) : string :=
  let '(lang, ctry) := locale in
  Lower (if bool_decide (ctry = "") then lang else lang +:+ "_" +:+ ctry).

Definition create_collation (locale : string * string) : Call :=
  CallCreateCollation
    {| collation_name := collation_of locale;
       function := GetICUFunction (collation_of locale);
       combinable := false; not_required_for_equality := true;
       on_conflict := IGNORE_ON_CONFLICT |}.

(** The calls of [Load] in program order, for the available locales. *)
Definition load_calls (locales : list (string * string)) : list Call :=
  CallBeginTransaction
  :: (create_collation <$> locales)
  ++ [CallCreateFunction
        {| name := "icu_sort_key"; arguments := [VARCHAR; VARCHAR];
           return_type := VARCHAR; has_side_effects := false; bind := BindICUSortKey |};
      CallAddExtensionOption "TimeZone" "The current time zone" VARCHAR;
      CallSetVariable "TimeZone" (ValueVarchar "UTC");
      CallCreateTableFunction "pg_timezone_names";
      CallRegisterICUDatePartFunctions;
      CallRegisterICUDateTruncFunctions;
      CallCommit].

(** Calls run in order until one throws; [respond history call] tells whether
    [call] throws after the calls of [history]. The result is the calls made
    and the exception, if any. *)
Fixpoint perform (respond : list Call → Call → option Throwable)
    (history calls : list Call) : list Call * option Throwable :=
  match calls with
  | [] => (history, None)
  | call :: rest =>
      match respond history call with
      | Some e => (history ++ [call], Some e)
      | None => perform respond (history ++ [call]) rest
      end
  end.

(** [void ICUExtension::Load(DuckDB &db)] *)
Definition Load (respond : list Call → Call → option Throwable)
    (locales : list (string * string)) : list Call * option Throwable :=
  perform respond [] (load_calls locales).

End Extension.

(** *** Notions used to state the properties of the extension *)

(** The library keeps its contract for sort keys: called on a buffer of at
    least [capacity] bytes, [getSortKey] reports the length of the sort key,
    keeps the length of the buffer, and, when the key fits, leaves the key at
    the start of the buffer. *)
Definition sort_key_contract `{Library} (sort_key : Collator → string → list nat) : Prop :=
  (∀ n, length (uninitialized n) = n)
  ∧ ∀ c input buffer capacity, capacity ≤ length buffer →
      (getSortKey c input buffer capacity).1 = length (sort_key c input)
      ∧ length (getSortKey c input buffer capacity).2 = length buffer
      ∧ (length (sort_key c input) ≤ capacity →
         take (length (sort_key c input)) (getSortKey c input buffer capacity).2
         = sort_key c input).

(** The two hexadecimal digits of each byte, high digit first. *)
Fixpoint hex_of_bytes (bytes : list nat) : list Ascii.ascii :=
  match bytes with
  | [] => []
  | b :: rest => hex_digit (uint8 b / 16) :: hex_digit (uint8 b mod 16) :: hex_of_bytes rest
  end.

(** Byte strings compared as [memcmp] does, a proper prefix coming first. *)
Fixpoint bytes_compare (k1 k2 : list nat) : comparison :=
  match k1, k2 with
  | [], [] => Eq
  | [], _ :: _ => Lt
  | _ :: _, [] => Gt
  | b1 :: r1, b2 :: r2 =>
      match Nat.compare b1 b2 with
      | Eq => bytes_compare r1 r2
      | c => c
      end
  end.

(** The sort key without its terminating byte. *)
Definition key_body (key : list nat) : list nat := take (length key - 1) key.

(** No byte of the key before its terminator is zero, as [D_ASSERT] in the
    conversion loop expects. *)
Definition zero_free (key : list nat) : Prop :=
  Forall (λ byte, uint8 byte ≠ 0) (key_body key).

Definition is_hex_digit (c : Ascii.ascii) : bool :=
  let n := Ascii.nat_of_ascii c in
  (48 <=? n) && (n <=? 57) || (65 <=? n) && (n <=? 70).

(** The arguments of the [CreateCollation] calls among [calls], in order. *)
Fixpoint collation_calls (calls : list Call) : list CreateCollationInfo :=
  match calls with
  | [] => []
  | CallCreateCollation info :: rest => info :: collation_calls rest
  | _ :: rest => collation_calls rest
  end.


(** An enumeration entry that yields a row: an identifier whose offset is
    known. *)
Definition yields_row `{Library} (now_p : UDate) (z : SNext) : bool :=
  match z with
  | SNextFailure => false
  | SNextId long_id => bool_decide (is_Some (getOffset long_id now_p))
  end.

(** The row of an entry that yields one. *)
Definition row_of `{Library} (now_p : UDate) (z : SNext) : list Value :=
  match z with
  | SNextFailure => []
  | SNextId long_id =>
      match getOffset long_id now_p with
      | Some (raw_offset_ms, dst_offset_ms) => zone_row long_id raw_offset_ms dst_offset_ms
      | None => []
      end
  end.

(** The longest prefix of entries that all yield a row. *)
Fixpoint good_prefix `{Library} (now_p : UDate) (zones : list SNext) : list SNext :=
  match zones with
  | [] => []
  | z :: rest => if yields_row now_p z then z :: good_prefix now_p rest else []
  end.

(** *** A small library, to run the extension *)

(** The sort key of the sample collator: the character codes, then 0. *)
Definition toy_key (input : string) : list nat :=
  (Ascii.nat_of_ascii <$> String.list_ascii_of_string input) ++ [0].

(** It writes the part of the key that fits and reports the full length. *)
Definition toy_getSortKey (c : unit) (input : string) (buffer : list nat)
    (capacity : nat) : nat * list nat :=
  (length (toy_key input),
   take (length buffer)
     (take capacity (toy_key input) ++ drop (length (take capacity (toy_key input))) buffer)).

Fixpoint toy_indexOf (s : string) (c : Ascii.ascii) : Z :=
  match s with
  | EmptyString => -1
  | String c' rest =>
      if bool_decide (c' = c) then 0
      else if (toy_indexOf rest c <? 0)%Z then -1 else (1 + toy_indexOf rest c)%Z
  end.

Fixpoint toy_split (s current : string) : list string :=
  match s with
  | EmptyString => [current]
  | String c rest =>
      if bool_decide (c = Ascii.ascii_of_nat 95) then current :: toy_split rest ""
      else toy_split rest (current +:+ String c "")
  end.

Definition toy_equivalents (long_id : string) : list string :=
  if bool_decide (long_id = "Europe/London") then ["Europe/Belfast"; "GB"; "GB-Eire"]
  else if bool_decide (long_id = "America/Lima") then ["America/Lima"]
  else [].

Definition toy_library : Library :=
  {| Collator := unit; UDate := Z;
     D_ASSERT_checks := true;
     createInstance := λ l c, if bool_decide (l = "") then None else Some ();
     getSortKey := toy_getSortKey;
     uninitialized := λ n, replicate n 170;
     Split := λ s sep, toy_split s "";
     Lower := λ s, s;
     EvaluateScalarAsVarchar := λ e, inr {| is_null := false; str_value := "de_DE" |};
     countEquivalentIDs := λ l, length (toy_equivalents l);
     getEquivalentID := λ l idx, nth idx (toy_equivalents l) "";
     indexOf := toy_indexOf;
     getOffset := λ l t, if bool_decide (l = "Mars/Olympus") then None
                         else if bool_decide (l = "Europe/London") then Some (0, 3600000)%Z
                         else Some (-18000000, 0)%Z;
     STANDARD_VECTOR_SIZE := 2;
     MICROS_PER_MSEC := 1000 |}.

(** Data of the sample runs. *)
Section ToyData.
#[local] Existing Instance toy_library.

Definition german : IcuBindData :=
  {| collator := (); language := "de"; country := "DE" |}.

Definition constant_argument : AnyExpression :=
  {| expression_class := Planner.ConstantExpression;
     expression_methods := Planner.ConstantExpression_Expression;
     expression := {| Planner.value := 0 |} |}.

Definition three_zones : ICUTimeZoneData :=
  {| tzs := [SNextId "Europe/London"; SNextId "America/Lima"; SNextId "Asia/Tokyo"];
     now := 0%Z |}.

Definition faulty_zones : ICUTimeZoneData :=
  {| tzs := [SNextId "Mars/Olympus"; SNextFailure; SNextId "Asia/Tokyo"]; now := 0%Z |}.

End ToyData.

End ICU.

(** * Properties *)

(** ** Common subexpressions *)

Example constant_child_is_scalar :
  Planner.IsScalar {| Planner.value := 7 |} = true
  ∧ Planner.IsScalar
      {| Planner.child := {| Planner.value := 7 |};
         Planner.owned_child := None; Planner.alias := "cse" |} = false.
Proof. split; reflexivity. Qed.

(** C10: for every CommonSubExpression node, whatever the class of its child
    and whatever that child answers, [IsScalar] is false and [IsFoldable] is
    false. *)
Theorem cse_never_scalar_never_foldable
    (E : Type) (HE : Planner.Expression E) (cse : Planner.CommonSubExpression E) :
  Planner.IsScalar cse = false ∧ Planner.IsFoldable cse = false.
Proof. split; reflexivity. Qed.

(** ** Teardown and initialization of an attachment *)

Lemma destroy_unfold env this :
  AttachedDatabase.destroy env this =
    if UncaughtException env then ([], Returned ())
    else if InMemory env (AttachedDatabase.storage this) then ([EvInMemory], Returned ())
    else if checkpoint_on_shutdown (options (config (AttachedDatabase.db this)))
    then ([EvInMemory; EvCreateCheckpoint true], Returned ())
    else ([EvInMemory], Returned ()).
Proof.
  unfold AttachedDatabase.destroy, DBConfigM.GetConfig.
  destruct (UncaughtException env); [reflexivity|].
  destruct (InMemory env _); [reflexivity|].
  destruct (checkpoint_on_shutdown _); [|reflexivity].
  cbn. destruct (CreateCheckpoint env _ true) as [e|[]]; reflexivity.
Qed.

(** C3: releasing the last reference attempts a checkpoint exactly when the
    storage is not in memory, [checkpoint_on_shutdown] is set and no failure
    is in flight; then there is exactly one attempt, otherwise none. *)
Theorem shutdown_checkpoint_attempts (env : Collaborators) (this : AttachedDatabase.t) :
  checkpoint_attempts (trace (AttachedDatabase.destroy env this)) =
    if negb (InMemory env (AttachedDatabase.storage this))
       && checkpoint_on_shutdown (options (config (AttachedDatabase.db this)))
       && negb (UncaughtException env)
    then 1 else 0.
Proof.
  rewrite destroy_unfold.
  destruct (UncaughtException env);
    destruct (InMemory env (AttachedDatabase.storage this));
    destruct (checkpoint_on_shutdown (options (config (AttachedDatabase.db this))));
    reflexivity.
Qed.

Example failing_checkpoint_is_attempted_once :
  let env := sample_env false false (inl "disk full") (inr ()) in
  AttachedDatabase.destroy env (AttachedDatabase.create env (sample_instance "/tmp/x.db" true))
  = ([EvInMemory; EvCreateCheckpoint true], Returned ()).
Proof. reflexivity. Qed.

(** C4: teardown never throws: it returns normally for every state of the
    attachment and every behaviour of the storage manager, also when
    [CreateCheckpoint] throws. *)
Theorem shutdown_never_throws (env : Collaborators) (this : AttachedDatabase.t) :
  outcome (AttachedDatabase.destroy env this) = Returned ().
Proof.
  rewrite destroy_unfold.
  destruct (UncaughtException env);
    destruct (InMemory env (AttachedDatabase.storage this));
    destruct (checkpoint_on_shutdown (options (config (AttachedDatabase.db this))));
    reflexivity.
Qed.

(** C8: the name of an attachment is ["memory"] when the configured path is
    empty or [":memory:"], and the base name of the path otherwise. *)
Theorem database_name_from_path (env : Collaborators) (dbi : DatabaseInstance) :
  let dbpath := database_path (options (config dbi)) in
  AttachedDatabase.name (AttachedDatabase.create env dbi) =
    if decide (dbpath = "" ∨ dbpath = ":memory:") then "memory"
    else ExtractBaseName env dbpath.
Proof.
  cbn. unfold AttachedDatabase.ExtractDatabaseName, DBConfigM.GetConfig.
  destruct (decide _) as [[->| ->]|Hne]; [reflexivity..|].
  rewrite !bool_decide_eq_false_2 by tauto. reflexivity.
Qed.

Example database_names :
  AttachedDatabase.ExtractDatabaseName toy_env "" = "memory"
  ∧ AttachedDatabase.ExtractDatabaseName toy_env ":memory:" = "memory"
  ∧ AttachedDatabase.ExtractDatabaseName toy_env "/var/data/sales" = "sales".
Proof. repeat split; reflexivity. Qed.

(** C9: [Initialize] calls the catalog first and the storage manager second;
    when the catalog call throws, the exception propagates and the storage
    manager is never called. *)
Theorem initialize_catalog_then_storage (env : Collaborators) (this : AttachedDatabase.t) :
  match CatalogInitialize env (AttachedDatabase.catalog this) false with
  | inl e =>
      AttachedDatabase.Initialize env this = ([EvCatalogInitialize false], Thrown e)
  | inr _ =>
      trace (AttachedDatabase.Initialize env this)
        = [EvCatalogInitialize false; EvStorageInitialize]
      ∧ outcome (AttachedDatabase.Initialize env this)
        = match StorageInitialize env (AttachedDatabase.storage this) with
          | inl e => Thrown e
          | inr u => Returned u
          end
  end.
Proof.
  unfold AttachedDatabase.Initialize.
  destruct (CatalogInitialize env _ false) as [e|[]]; [reflexivity|].
  destruct (StorageInitialize env _) as [e|[]]; split; reflexivity.
Qed.

(** ** Execute, Prepare and named execution *)

Section ClientProperties.
Context `{FrontEnd} (env : Collaborators).

Lemma run_bound_plan_frame w p vals e :
  (run_bound_plan w p vals).2 = Err e → (run_bound_plan w p vals).1 = w.
Proof.
  unfold run_bound_plan. repeat case_match; simplify_eq/=; done.
Qed.

(** A failed [Execute] leaves the world as it was. *)
Lemma Execute_failure_frame w p args e :
  (Execute w p args).2 = Err e → (Execute w p args).1 = w.
Proof.
  unfold Execute. repeat case_match; simpl; try done.
  apply run_bound_plan_frame.
Qed.

Lemma Execute_not_valid w p args :
  valid w p = false → Execute w p args = (w, Err (rejection p args)).
Proof.
  intros Hv. unfold Execute, rejection. rewrite Hv. simpl.
  repeat case_match; done.
Qed.

Lemma Execute_failed_statement w p args :
  PreparedStatement.success p = false →
  Execute w p args =
    (w, Err (ParseOrBindError (default "" (PreparedStatement.error p)))).
Proof. intros Hs. unfold Execute. rewrite Hs. done. Qed.

Lemma Prepare_failure w c nm sql :
  PreparedStatement.success (Prepare w c nm sql).2 = false →
  (Prepare w c nm sql).1 = w
  ∧ ∃ msg, (Prepare w c nm sql).2 = PreparedStatement.failed c sql msg.
Proof.
  unfold Prepare. repeat case_match; simpl; intros Hs; try discriminate;
    split; eauto.
Qed.

Lemma lookup_connection_at w c :
  bool_decide (is_Some (connections w !! c)) = true →
  connections w !! c = Some (connection_at w c).
Proof.
  intros Hs. apply bool_decide_eq_true in Hs as [con Hc].
  unfold connection_at. by rewrite Hc.
Qed.

Lemma lookup_database_at w d :
  bool_decide (is_Some (databases w !! d)) = true →
  databases w !! d = Some (database_at w d).
Proof.
  intros Hs. apply bool_decide_eq_true in Hs as [adb Hd].
  unfold database_at. by rewrite Hd.
Qed.

(** C5: when the SQL text holds a number of top-level statements other than
    one, does not parse, or does not bind, [Prepare] returns a statement with
    [success = false] and a populated [error], changes nothing, and every
    [Execute] on that statement, in any later state and with any arguments,
    fails with that same compile-time error and changes nothing. *)
Theorem prepare_captures_errors (w : World) (c : nat) (nm : option string) (sql : string) :
  (count_statements sql ≠ 1
   ∨ (∃ msg, parse sql = inl msg)
   ∨ (∃ refs tys pl con adb e,
        parse sql = inr (refs, tys, pl) ∧ resolve w c = Some (con, adb)
        ∧ bind_references (AttachedDatabase.catalog adb)
            (Connection.transaction_id con) refs = Err e)) →
  PreparedStatement.success (Prepare w c nm sql).2 = false
  ∧ (Prepare w c nm sql).1 = w
  ∧ ∃ msg, PreparedStatement.error (Prepare w c nm sql).2 = Some msg
           ∧ ∀ w' args, Execute w' (Prepare w c nm sql).2 args
                        = (w', Err (ParseOrBindError msg)).
Proof.
  intros Hcause.
  assert (PreparedStatement.success (Prepare w c nm sql).2 = false) as Hs.
  { unfold Prepare.
    destruct (resolve w c) as [[con adb]|] eqn:Hr; [|done].
    case_bool_decide as Hn; simpl; [|done].
    destruct Hcause as [Hc|[[msg Hp]|(refs & tys & pl & con' & adb' & e & Hp & Hr' & Hb)]].
    - done.
    - rewrite Hp. done.
    - rewrite Hp. simplify_eq. rewrite Hb. done. }
  split; [done|].
  destruct (Prepare_failure w c nm sql Hs) as [Hw [msg Hp]].
  split; [done|]. exists msg. rewrite Hp. split; [done|].
  intros w' args. by rewrite Execute_failed_statement.
Qed.

(** C6 (amended): an argument list whose length differs from
    [parameter_count] makes [Execute] fail before anything is looked up: the
    world comes back unchanged and the error does not depend on it. The error
    is the parameter-count error for a successfully prepared statement; a
    Failed statement repeats its compile-time error instead. *)
Theorem execute_wrong_arity (w : World) (p : PreparedStatement.t) (args : list Value) :
  length args ≠ PreparedStatement.parameter_count p →
  Execute w p args =
    (w, Err (if PreparedStatement.success p then ParameterError WrongArity
             else ParseOrBindError (default "" (PreparedStatement.error p)))).
Proof.
  intros Hlen. unfold Execute.
  destruct (PreparedStatement.success p); simpl; [|done].
  by rewrite bool_decide_eq_false_2.
Qed.

Lemma ReleaseStatement_unregistered w c nm : unregistered (ReleaseStatement w c nm) c nm.
Proof.
  unfold unregistered, ReleaseStatement. intros con.
  destruct (connections w !! c) as [con0|] eqn:Hc; simpl.
  - rewrite lookup_insert_eq. intros [= <-]. simpl. apply lookup_delete_eq.
  - by rewrite Hc.
Qed.

Lemma ExecuteNamed_unregistered w c con nm args :
  connections w !! c = Some con → unregistered w c nm →
  ExecuteNamed w c nm args = (w, Err (NotFoundError nm)).
Proof.
  intros Hc Hu. unfold ExecuteNamed. rewrite Hc, (Hu con Hc). done.
Qed.

Lemma ReleaseStatement_alive w c c' nm :
  is_Some (connections w !! c) → is_Some (connections (ReleaseStatement w c' nm) !! c).
Proof.
  unfold ReleaseStatement. destruct (connections w !! c') eqn:Hc'; [|done].
  simpl. intros Hc. destruct (decide (c' = c)) as [->|Hne].
  - rewrite lookup_insert_eq. eauto.
  - by rewrite lookup_insert_ne.
Qed.

End ClientProperties.

(** ** Invalidation flags are never cleared *)

Lemma flags_kept_refl cat : flags_kept cat cat.
Proof. intros r e He Hf. eauto. Qed.

Lemma flags_kept_trans cat1 cat2 cat3 :
  flags_kept cat1 cat2 → flags_kept cat2 cat3 → flags_kept cat1 cat3.
Proof.
  intros H12 H23 r e He Hf.
  destruct (H12 r e He Hf) as (e2 & He2 & Hf2). eauto.
Qed.

Lemma invalidate_entry_flag tx_id e :
  CatalogEntry.invalidated e = true →
  CatalogEntry.invalidated (Catalog.invalidate_entry tx_id e) = true.
Proof. unfold Catalog.invalidate_entry. case_bool_decide; done. Qed.

Lemma commit_entry_flag tx_id e :
  CatalogEntry.invalidated (Catalog.commit_entry tx_id e) = CatalogEntry.invalidated e.
Proof. unfold Catalog.commit_entry. case_bool_decide; done. Qed.

Lemma flags_kept_Invalidate cat tx_id : flags_kept cat (Catalog.Invalidate cat tx_id).
Proof.
  intros r e He Hf. exists (Catalog.invalidate_entry tx_id e). split.
  - simpl. rewrite list_lookup_fmap, He. done.
  - by apply invalidate_entry_flag.
Qed.

Lemma flags_kept_Commit cat tx_id : flags_kept cat (Catalog.Commit cat tx_id).
Proof.
  intros r e He Hf. exists (Catalog.commit_entry tx_id e). split.
  - simpl. rewrite list_lookup_fmap, He. done.
  - by rewrite commit_entry_flag.
Qed.

Lemma flags_kept_CreateEntry cat tx_id nm k :
  flags_kept cat (Catalog.CreateEntry cat tx_id nm k).1.
Proof.
  unfold Catalog.CreateEntry. case_match; simpl; [apply flags_kept_refl|].
  intros r e He Hf. exists e. split; [|done]. simpl.
  by apply lookup_app_l_Some.
Qed.

Lemma flags_kept_Rollback tm cat tx :
  flags_kept cat (TransactionManager.Rollback tm cat tx).1.1.2.
Proof.
  unfold TransactionManager.Rollback.
  case_match; simpl; auto using flags_kept_refl, flags_kept_Invalidate.
Qed.

Lemma flags_kept_TxCommit tm cat tx persisted :
  flags_kept cat (TransactionManager.Commit tm cat tx persisted).1.1.2.
Proof.
  unfold TransactionManager.Commit.
  repeat case_match; simpl;
    auto using flags_kept_refl, flags_kept_Invalidate, flags_kept_Commit.
Qed.

Lemma store_kept_refl adb : store_kept adb adb.
Proof. split; [apply flags_kept_refl|done]. Qed.

Lemma store_kept_trans adb1 adb2 adb3 :
  store_kept adb1 adb2 → store_kept adb2 adb3 → store_kept adb1 adb3.
Proof.
  intros [Hf12 Hr12] [Hf23 Hr23]. split; [eauto using flags_kept_trans|set_solver].
Qed.

Lemma store_kept_with adb cat tm :
  flags_kept (AttachedDatabase.catalog adb) cat →
  TransactionManager.rolled_back_transactions (AttachedDatabase.transaction_manager adb)
    ⊆ TransactionManager.rolled_back_transactions tm →
  store_kept adb (with_store adb cat tm).
Proof. intros Hf Hr. split; done. Qed.

Lemma rolled_back_Rollback tm cat tx :
  TransactionManager.rolled_back_transactions tm
    ⊆ TransactionManager.rolled_back_transactions
        (TransactionManager.Rollback tm cat tx).1.1.1.
Proof.
  unfold TransactionManager.Rollback. case_match; simpl; set_solver.
Qed.

Lemma rolled_back_TxCommit tm cat tx persisted :
  TransactionManager.rolled_back_transactions tm
    ⊆ TransactionManager.rolled_back_transactions
        (TransactionManager.Commit tm cat tx persisted).1.1.1.
Proof.
  unfold TransactionManager.Commit. repeat case_match; simpl; set_solver.
Qed.

(** What a rollback does to the entries of the transaction. *)
Lemma Invalidate_owned cat tx_id r e :
  Catalog.entries cat !! r = Some e →
  CatalogEntry.owning_transaction_id e = Some tx_id →
  ∃ e', Catalog.entries (Catalog.Invalidate cat tx_id) !! r = Some e'
        ∧ CatalogEntry.invalidated e' = true.
Proof.
  intros He Ho. exists (Catalog.invalidate_entry tx_id e). split.
  - simpl. rewrite list_lookup_fmap, He. done.
  - unfold Catalog.invalidate_entry. rewrite bool_decide_eq_true_2; done.
Qed.

(** ** Later states *)

Section Evolution.
Context `{FrontEnd} (env : Collaborators).

Lemma evolves_refl w : evolves w w.
Proof.
  repeat split; try lia.
  - intros c con' _ Hc. eauto.
  - intros d adb' _ Hd. eauto using store_kept_refl.
Qed.

Lemma evolves_trans w1 w2 w3 : evolves w1 w2 → evolves w2 w3 → evolves w1 w3.
Proof.
  intros (Hc12 & Hd12 & Hcon12 & Hdb12) (Hc23 & Hd23 & Hcon23 & Hdb23).
  repeat split; try lia.
  - intros c con3 Hlt H3.
    destruct (Hcon23 c con3 ltac:(lia) H3) as (con2 & H2 & E23).
    destruct (Hcon12 c con2 Hlt H2) as (con1 & H1 & E12).
    exists con1. split; [done|congruence].
  - intros d adb3 Hlt H3.
    destruct (Hdb23 d adb3 ltac:(lia) H3) as (adb2 & H2 & F23).
    destruct (Hdb12 d adb2 Hlt H2) as (adb1 & H1 & F12).
    exists adb1. split; [done|]. eauto using store_kept_trans.
Qed.

Lemma evolves_set_database w d adb adb' :
  databases w !! d = Some adb →
  store_kept adb adb' →
  evolves w (set_database w d adb').
Proof.
  intros Hd Hf. repeat split; simpl; try lia.
  - intros c con' _ Hc. eauto.
  - intros d0 adb0 _ H0. destruct (decide (d = d0)) as [->|Hne].
    + rewrite lookup_insert_eq in H0. simplify_eq. eauto.
    + rewrite lookup_insert_ne in H0 by done. eauto using store_kept_refl.
Qed.

Lemma evolves_set_connection w c con con' :
  connections w !! c = Some con →
  Connection.database con = Connection.database con' →
  evolves w (set_connection w c con').
Proof.
  intros Hc Hdb. repeat split; simpl; try lia.
  - intros c0 con0 _ H0. destruct (decide (c = c0)) as [->|Hne].
    + rewrite lookup_insert_eq in H0. simplify_eq. eauto.
    + rewrite lookup_insert_ne in H0 by done. eauto.
  - intros d adb' _ Hd. eauto using store_kept_refl.
Qed.

Lemma evolves_DestroyDatabase w d : evolves w (DestroyDatabase w d).
Proof.
  repeat split; simpl; try lia.
  - intros c con' _ Hc. eauto.
  - intros d0 adb0 _ H0. apply lookup_delete_Some in H0 as [_ H0].
    eauto using store_kept_refl.
Qed.

Lemma evolves_Attach w dbi : evolves w (Attach env w dbi).1.
Proof.
  unfold Attach. case_match; simpl; [|apply evolves_refl].
  repeat split; simpl; try lia.
  - intros c con' _ Hc. eauto.
  - intros d adb' Hlt Hd. rewrite lookup_insert_ne in Hd by lia.
    eauto using store_kept_refl.
Qed.

Lemma evolves_Connect w d : evolves w (Connect w d).1.
Proof.
  unfold Connect. case_match; simpl; [|apply evolves_refl].
  repeat split; simpl; try lia.
  - intros c con' Hlt Hc. rewrite lookup_insert_ne in Hc by lia. eauto.
  - intros d0 adb' _ Hd. eauto using store_kept_refl.
Qed.

Lemma resolve_Some w c con adb :
  resolve w c = Some (con, adb) →
  connections w !! c = Some con ∧ databases w !! Connection.database con = Some adb.
Proof.
  unfold resolve. intros Hr.
  destruct (connections w !! c) as [con0|]; simpl in Hr; [|done].
  destruct (databases w !! Connection.database con0) as [adb0|] eqn:Hd;
    simpl in Hr; [|done].
  by simplify_eq.
Qed.

Lemma resolve_None w c :
  resolve w c = None →
  connections w !! c = None
  ∨ ∃ con, connections w !! c = Some con ∧ databases w !! Connection.database con = None.
Proof.
  unfold resolve. intros Hr.
  destruct (connections w !! c) as [con0|]; simpl in Hr; [|by left].
  destruct (databases w !! Connection.database con0) as [adb0|] eqn:Hd;
    simpl in Hr; [done|]. right. eauto.
Qed.

Lemma evolves_delete_connection w c :
  evolves w {| databases := databases w; connections := delete c (connections w);
               next_database_id := next_database_id w;
               next_connection_id := next_connection_id w |}.
Proof.
  repeat split; simpl; try lia.
  - intros c0 con0 _ H0. apply lookup_delete_Some in H0 as [_ H0]. eauto.
  - intros d adb' _ Hd. eauto using store_kept_refl.
Qed.

(** The update every transactional operation performs: a new store for the
    database of the connection, then a new transaction for the connection. *)
Lemma evolves_update w c con adb cat tm con' :
  connections w !! c = Some con →
  databases w !! Connection.database con = Some adb →
  store_kept adb (with_store adb cat tm) →
  Connection.database con = Connection.database con' →
  evolves w (set_connection
               (set_database w (Connection.database con) (with_store adb cat tm)) c con').
Proof.
  intros Hc Hd Hf Hdb.
  apply (evolves_trans _
           (set_database w (Connection.database con) (with_store adb cat tm))).
  - eapply evolves_set_database; [exact Hd|exact Hf].
  - eapply evolves_set_connection; [exact Hc|exact Hdb].
Qed.

Lemma evolves_DestroyConnection w c : evolves w (DestroyConnection w c).
Proof.
  unfold DestroyConnection.
  destruct (connections w !! c) as [con|] eqn:Hc; [|apply evolves_refl].
  eapply evolves_trans; [|apply evolves_delete_connection].
  destruct (Connection.current_transaction con) as [tx|]; [|apply evolves_refl].
  destruct (databases w !! Connection.database con) as [adb|] eqn:Hd;
    [|apply evolves_refl].
  pose proof (flags_kept_Rollback (AttachedDatabase.transaction_manager adb)
                (AttachedDatabase.catalog adb) tx) as Hf.
  pose proof (rolled_back_Rollback (AttachedDatabase.transaction_manager adb)
                (AttachedDatabase.catalog adb) tx) as Hr.
  destruct (TransactionManager.Rollback _ _ tx) as [[[tm cat] tx'] res].
  eapply evolves_set_database; [exact Hd|by apply store_kept_with].
Qed.

Lemma evolves_Begin w c : evolves w (Begin w c).1.
Proof.
  unfold Begin.
  destruct (resolve w c) as [[con adb]|] eqn:Hr; [|apply evolves_refl].
  apply resolve_Some in Hr as [Hc Hd].
  destruct (Connection.current_transaction con); [apply evolves_refl|].
  simpl. eapply evolves_update; eauto.
  apply store_kept_with; [apply flags_kept_refl|done].
Qed.

Lemma evolves_finish w c con adb r :
  connections w !! c = Some con →
  databases w !! Connection.database con = Some adb →
  flags_kept (AttachedDatabase.catalog adb) r.1.1.2 →
  TransactionManager.rolled_back_transactions (AttachedDatabase.transaction_manager adb)
    ⊆ TransactionManager.rolled_back_transactions r.1.1.1 →
  evolves w (finish w c con adb r).1.
Proof.
  intros Hc Hd Hf Hr. destruct r as [[[tm cat] tx] res]. simpl in *.
  eapply evolves_update; eauto using store_kept_with.
Qed.

Lemma evolves_Commit w c persisted : evolves w (Commit w c persisted).1.
Proof.
  unfold Commit.
  destruct (resolve w c) as [[con adb]|] eqn:Hr; [|apply evolves_refl].
  apply resolve_Some in Hr as [Hc Hd].
  destruct (Connection.current_transaction con); [|apply evolves_refl].
  apply evolves_finish; auto using flags_kept_TxCommit, rolled_back_TxCommit.
Qed.

Lemma evolves_Rollback w c : evolves w (Rollback w c).1.
Proof.
  unfold Rollback.
  destruct (resolve w c) as [[con adb]|] eqn:Hr; [|apply evolves_refl].
  apply resolve_Some in Hr as [Hc Hd].
  destruct (Connection.current_transaction con); [|apply evolves_refl].
  apply evolves_finish; auto using flags_kept_Rollback, rolled_back_Rollback.
Qed.

Lemma evolves_CreateEntry w c nm k persisted :
  evolves w (CreateEntry w c nm k persisted).1.
Proof.
  unfold CreateEntry.
  destruct (resolve w c) as [[con adb]|] eqn:Hr; [|apply evolves_refl].
  apply resolve_Some in Hr as [Hc Hd].
  destruct (Connection.current_transaction con) as [tx|].
  - pose proof (flags_kept_CreateEntry (AttachedDatabase.catalog adb)
                  (Transaction.id tx) nm k) as Hf.
    destruct (Catalog.CreateEntry _ _ nm k) as [cat1 [r|e]]; [|apply evolves_refl].
    simpl. eapply evolves_update; eauto using store_kept_with.
  - assert (TransactionManager.rolled_back_transactions
              (TransactionManager.Begin (AttachedDatabase.transaction_manager adb)).1
            = TransactionManager.rolled_back_transactions
                (AttachedDatabase.transaction_manager adb)) as Hb by done.
    destruct (TransactionManager.Begin _) as [tm1 tx]. simpl in Hb.
    pose proof (flags_kept_CreateEntry (AttachedDatabase.catalog adb)
                  (Transaction.id tx) nm k) as Hf.
    destruct (Catalog.CreateEntry _ _ nm k) as [cat1 [r|e]]; simpl in Hf.
    + pose proof (flags_kept_TxCommit tm1 cat1 (Transaction.record_change tx r)
                    persisted) as Hf2.
      pose proof (rolled_back_TxCommit tm1 cat1 (Transaction.record_change tx r)
                    persisted) as Hr2.
      destruct (TransactionManager.Commit _ _ _ _) as [[[tm2 cat2] tx2] res].
      simpl in *. eapply evolves_set_database; [exact Hd|].
      apply store_kept_with; [eauto using flags_kept_trans|by rewrite <- Hb].
    + pose proof (flags_kept_Rollback tm1 cat1 tx) as Hf2.
      pose proof (rolled_back_Rollback tm1 cat1 tx) as Hr2.
      destruct (TransactionManager.Rollback _ _ _) as [[[tm2 cat2] tx2] res].
      simpl in *. eapply evolves_set_database; [exact Hd|].
      apply store_kept_with; [eauto using flags_kept_trans|by rewrite <- Hb].
Qed.

Lemma evolves_Prepare w c nm sql : evolves w (Prepare w c nm sql).1.
Proof.
  unfold Prepare.
  destruct (resolve w c) as [[con adb]|] eqn:Hr; [|apply evolves_refl].
  apply resolve_Some in Hr as [Hc Hd].
  repeat case_match; simpl; try apply evolves_refl.
  eapply evolves_set_connection; eauto.
Qed.

Lemma evolves_Execute w p args : evolves w (Execute w p args).1.
Proof.
  unfold Execute. repeat case_match; simpl; try apply evolves_refl.
  unfold run_bound_plan.
  destruct (resolve w _) as [[con adb]|] eqn:Hr; [|apply evolves_refl].
  apply resolve_Some in Hr as [Hc Hd].
  destruct (PreparedStatement.bound_plan p); [|apply evolves_refl].
  destruct (Connection.current_transaction con); [apply evolves_refl|].
  assert (TransactionManager.rolled_back_transactions
            (TransactionManager.Begin (AttachedDatabase.transaction_manager adb)).1
          = TransactionManager.rolled_back_transactions
              (AttachedDatabase.transaction_manager adb)) as Hb by done.
  destruct (TransactionManager.Begin _) as [tm1 tx]. simpl in Hb.
  pose proof (flags_kept_TxCommit tm1 (AttachedDatabase.catalog adb) tx true) as Hf.
  pose proof (rolled_back_TxCommit tm1 (AttachedDatabase.catalog adb) tx true) as Hr.
  destruct (TransactionManager.Commit _ _ _ _) as [[[tm2 cat2] tx2] res].
  simpl in *. eapply evolves_set_database; [exact Hd|].
  apply store_kept_with; [done|by rewrite <- Hb].
Qed.

Lemma evolves_ExecuteNamed w c nm args : evolves w (ExecuteNamed w c nm args).1.
Proof.
  unfold ExecuteNamed. repeat case_match; simpl; try apply evolves_refl.
  apply evolves_Execute.
Qed.

Lemma evolves_ReleaseStatement w c nm : evolves w (ReleaseStatement w c nm).
Proof.
  unfold ReleaseStatement.
  destruct (connections w !! c) as [con|] eqn:Hc; [|apply evolves_refl].
  eapply evolves_set_connection; eauto.
Qed.

Lemma evolves_DropStatement w p : evolves w (DropStatement w p).
Proof.
  unfold DropStatement. case_match; [apply evolves_ReleaseStatement|apply evolves_refl].
Qed.

Lemma evolves_step w cmd : evolves w (step env w cmd).
Proof.
  destruct cmd; simpl;
    auto using evolves_Attach, evolves_DestroyDatabase, evolves_Connect,
      evolves_DestroyConnection, evolves_Begin, evolves_Commit, evolves_Rollback,
      evolves_CreateEntry, evolves_Prepare, evolves_Execute, evolves_ExecuteNamed,
      evolves_ReleaseStatement, evolves_DropStatement.
Qed.

Lemma evolves_run cmds : ∀ w, evolves w (run env w cmds).
Proof.
  induction cmds as [|cmd cmds IH]; intros w; simpl.
  - apply evolves_refl.
  - eapply evolves_trans; [apply evolves_step|apply IH].
Qed.

(** A doomed statement stays doomed in every later state. *)
Lemma doomed_evolves w w' c d refs created :
  doomed w c d refs created → evolves w w' → doomed w' c d refs created.
Proof.
  intros (Hc & Hd & Hbind & Hflag) (Hnc & Hnd & Hcon & Hdb).
  split; [lia|]. split; [lia|]. split.
  - intros con' Hc'. destruct (Hcon c con' Hc Hc') as (con & Hcw & E).
    rewrite <- E. by apply Hbind.
  - intros con' adb' Hc' Hd'.
    destruct (Hcon c con' Hc Hc') as (con & Hcw & E).
    destruct (Hdb d adb' Hd Hd') as (adb & Hdw & Hf & Hrb).
    destruct (Hflag con adb Hcw Hdw) as [(r & e & Hr & He & Hfl)|(t & Ht & Hin)].
    + left. destruct (Hf r e He Hfl) as (e' & He' & Hfl'). eauto.
    + right. exists t. split; [done|]. by apply Hrb.
Qed.

Lemma doomed_not_valid w p d :
  doomed w (PreparedStatement.owning_connection p) d (PreparedStatement.referenced p)
    (PreparedStatement.creation_transaction_id p) →
  valid w p = false.
Proof.
  intros (_ & _ & Hbind & Hflag). unfold valid.
  destruct (resolve w _) as [[con adb]|] eqn:Hr; [|done].
  apply resolve_Some in Hr as [Hc Hd].
  rewrite (Hbind con Hc) in Hd.
  destruct (Hflag con adb Hc Hd) as [(r & e & Hr & He & Hfl)|(t & Ht & Hin)].
  - apply andb_false_intro1, not_true_is_false. intros Hall.
    rewrite forallb_forall in Hall.
    specialize (Hall r). rewrite <- list_elem_of_In in Hall. specialize (Hall Hr).
    unfold Catalog.is_invalidated in Hall. rewrite He, Hfl in Hall. done.
  - apply andb_false_intro2. unfold creation_rolled_back. rewrite Ht.
    by rewrite bool_decide_eq_true_2.
Qed.

(** Once doomed, a statement is rejected with the same error from then on. *)
Lemma doomed_Execute w p d args cmds :
  doomed w (PreparedStatement.owning_connection p) d (PreparedStatement.referenced p)
    (PreparedStatement.creation_transaction_id p) →
  Execute (run env w cmds) p args = (run env w cmds, Err (rejection p args)).
Proof.
  intros Hd. apply Execute_not_valid. eapply doomed_not_valid.
  eapply doomed_evolves; [exact Hd|apply evolves_run].
Qed.

End Evolution.

(** ** Reachable states are well formed *)

Section WellFormed.
Context `{FrontEnd} (env : Collaborators).

Lemma well_formed_initial : well_formed initial_world.
Proof. split; simpl; intros ? ? Hl; by rewrite lookup_empty in Hl. Qed.

Lemma still_active_Some tx tx' :
  still_active tx = Some tx' → Transaction.status tx' = Active.
Proof.
  unfold still_active. destruct (Transaction.status tx) eqn:Hs; intros [= <-]. done.
Qed.

Lemma well_formed_set_database w d adb adb' :
  well_formed w → databases w !! d = Some adb → well_formed (set_database w d adb').
Proof.
  intros [Hdb Hcon] Hd. split; simpl.
  - intros d0 adb0 H0. destruct (decide (d = d0)) as [->|Hne]; [by eauto|].
    rewrite lookup_insert_ne in H0 by done. eauto.
  - exact Hcon.
Qed.

Lemma well_formed_set_connection w c con con' :
  well_formed w → connections w !! c = Some con →
  Connection.database con = Connection.database con' →
  (∀ tx, Connection.current_transaction con' = Some tx → Transaction.status tx = Active) →
  well_formed (set_connection w c con').
Proof.
  intros [Hdb Hcon] Hc Hsame Htx. split; simpl; [exact Hdb|].
  intros c0 con0 H0. destruct (decide (c = c0)) as [->|Hne].
  - rewrite lookup_insert_eq in H0. simplify_eq.
    destruct (Hcon c0 con Hc) as (Hlt & Hd & _). rewrite <- Hsame. auto.
  - rewrite lookup_insert_ne in H0 by done. eauto.
Qed.

Lemma well_formed_update w c con adb cat tm con' :
  well_formed w → connections w !! c = Some con →
  databases w !! Connection.database con = Some adb →
  Connection.database con = Connection.database con' →
  (∀ tx, Connection.current_transaction con' = Some tx → Transaction.status tx = Active) →
  well_formed (set_connection
                 (set_database w (Connection.database con) (with_store adb cat tm)) c con').
Proof.
  intros Hwf Hc Hd Hsame Htx.
  eapply well_formed_set_connection; [|exact Hc|exact Hsame|exact Htx].
  eapply well_formed_set_database; [exact Hwf|exact Hd].
Qed.

Lemma well_formed_delete_connection w c :
  well_formed w →
  well_formed {| databases := databases w; connections := delete c (connections w);
                 next_database_id := next_database_id w;
                 next_connection_id := next_connection_id w |}.
Proof.
  intros [Hdb Hcon]. split; simpl; [exact Hdb|].
  intros c0 con0 H0. apply lookup_delete_Some in H0 as [_ H0]. eauto.
Qed.

Lemma well_formed_DestroyDatabase w d : well_formed w → well_formed (DestroyDatabase w d).
Proof.
  intros [Hdb Hcon]. split; simpl; [|exact Hcon].
  intros d0 adb0 H0. apply lookup_delete_Some in H0 as [_ H0]. eauto.
Qed.

Lemma well_formed_Attach w dbi : well_formed w → well_formed (Attach env w dbi).1.
Proof.
  intros [Hdb Hcon]. unfold Attach. case_match; simpl; [|by split].
  split; simpl.
  - intros d adb Hd. destruct (decide (next_database_id w = d)) as [<-|Hne]; [lia|].
    rewrite lookup_insert_ne in Hd by done. apply Hdb in Hd. lia.
  - intros c con Hc. destruct (Hcon c con Hc) as (? & ? & ?).
    repeat split; auto; lia.
Qed.

Lemma well_formed_Connect w d : well_formed w → well_formed (Connect w d).1.
Proof.
  intros [Hdb Hcon]. unfold Connect.
  destruct (databases w !! d) as [adb|] eqn:Hd; simpl; [|by split].
  split; simpl; [exact Hdb|].
  intros c con Hc. destruct (decide (next_connection_id w = c)) as [<-|Hne].
  - rewrite lookup_insert_eq in Hc. simplify_eq. simpl.
    repeat split; eauto; try lia; done.
  - rewrite lookup_insert_ne in Hc by done.
    destruct (Hcon c con Hc) as (? & ? & ?). repeat split; auto; lia.
Qed.

Lemma well_formed_DestroyConnection w c :
  well_formed w → well_formed (DestroyConnection w c).
Proof.
  intros Hwf. unfold DestroyConnection.
  destruct (connections w !! c) as [con|] eqn:Hc; [|done].
  match goal with
  | |- well_formed {| databases := databases ?w1; connections := _;
                      next_database_id := _; next_connection_id := _ |} =>
      apply (well_formed_delete_connection w1)
  end.
  destruct (Connection.current_transaction con) as [tx|]; [|done].
  destruct (databases w !! Connection.database con) as [adb|] eqn:Hd; [|done].
  destruct (TransactionManager.Rollback _ _ tx) as [[[tm cat] tx'] res].
  eapply well_formed_set_database; eauto.
Qed.

Lemma well_formed_Begin w c : well_formed w → well_formed (Begin w c).1.
Proof.
  intros Hwf. unfold Begin.
  destruct (resolve w c) as [[con adb]|] eqn:Hr; [|done].
  apply resolve_Some in Hr as [Hc Hd].
  destruct (Connection.current_transaction con); [done|].
  simpl. eapply well_formed_update; eauto.
  simpl. intros tx [= <-]. done.
Qed.

Lemma well_formed_finish w c con adb r :
  well_formed w → connections w !! c = Some con →
  databases w !! Connection.database con = Some adb →
  well_formed (finish w c con adb r).1.
Proof.
  intros Hwf Hc Hd. destruct r as [[[tm cat] tx] res]. simpl.
  eapply well_formed_update; eauto.
  simpl. intros tx'. apply still_active_Some.
Qed.

Lemma well_formed_Commit w c persisted :
  well_formed w → well_formed (Commit w c persisted).1.
Proof.
  intros Hwf. unfold Commit.
  destruct (resolve w c) as [[con adb]|] eqn:Hr; [|done].
  apply resolve_Some in Hr as [Hc Hd].
  destruct (Connection.current_transaction con); [|done].
  by apply well_formed_finish.
Qed.

Lemma well_formed_Rollback w c : well_formed w → well_formed (Rollback w c).1.
Proof.
  intros Hwf. unfold Rollback.
  destruct (resolve w c) as [[con adb]|] eqn:Hr; [|done].
  apply resolve_Some in Hr as [Hc Hd].
  destruct (Connection.current_transaction con); [|done].
  by apply well_formed_finish.
Qed.

Lemma well_formed_CreateEntry w c nm k persisted :
  well_formed w → well_formed (CreateEntry w c nm k persisted).1.
Proof.
  intros Hwf. unfold CreateEntry.
  destruct (resolve w c) as [[con adb]|] eqn:Hr; [|done].
  apply resolve_Some in Hr as [Hc Hd].
  destruct (Connection.current_transaction con) as [tx|] eqn:Htx.
  - destruct (Catalog.CreateEntry _ _ nm k) as [cat1 [r|e]]; [|done].
    simpl. eapply well_formed_update; eauto.
    simpl. intros tx' [= <-]. simpl.
    destruct Hwf as [_ Hcon]. destruct (Hcon c con Hc) as (_ & _ & Hact). auto.
  - destruct (TransactionManager.Begin _) as [tm1 tx].
    destruct (Catalog.CreateEntry _ _ nm k) as [cat1 [r|e]].
    + destruct (TransactionManager.Commit _ _ _ _) as [[[tm2 cat2] tx2] res].
      simpl. eapply well_formed_set_database; eauto.
    + destruct (TransactionManager.Rollback _ _ _) as [[[tm2 cat2] tx2] res].
      simpl. eapply well_formed_set_database; eauto.
Qed.

Lemma well_formed_Prepare w c nm sql : well_formed w → well_formed (Prepare w c nm sql).1.
Proof.
  intros Hwf. unfold Prepare.
  destruct (resolve w c) as [[con adb]|] eqn:Hr; [|done].
  apply resolve_Some in Hr as [Hc Hd].
  repeat case_match; simpl; try done.
  eapply well_formed_set_connection; eauto.
  simpl. destruct Hwf as [_ Hcon]. destruct (Hcon c con Hc) as (_ & _ & Hact). auto.
Qed.

Lemma well_formed_Execute w p args : well_formed w → well_formed (Execute w p args).1.
Proof.
  intros Hwf. unfold Execute. repeat case_match; simpl; try done.
  unfold run_bound_plan.
  destruct (resolve w _) as [[con adb]|] eqn:Hr; [|done].
  apply resolve_Some in Hr as [Hc Hd].
  destruct (PreparedStatement.bound_plan p); [|done].
  destruct (Connection.current_transaction con); [done|].
  destruct (TransactionManager.Begin _) as [tm1 tx].
  destruct (TransactionManager.Commit _ _ _ _) as [[[tm2 cat2] tx2] res].
  simpl. eapply well_formed_set_database; eauto.
Qed.

Lemma well_formed_ReleaseStatement w c nm :
  well_formed w → well_formed (ReleaseStatement w c nm).
Proof.
  intros Hwf. unfold ReleaseStatement.
  destruct (connections w !! c) as [con|] eqn:Hc; [|done].
  eapply well_formed_set_connection; eauto.
  simpl. destruct Hwf as [_ Hcon]. destruct (Hcon c con Hc) as (_ & _ & Hact). auto.
Qed.

Lemma well_formed_step w cmd : well_formed w → well_formed (step env w cmd).
Proof.
  intros Hwf. destruct cmd; simpl;
    auto using well_formed_Attach, well_formed_DestroyDatabase, well_formed_Connect,
      well_formed_DestroyConnection, well_formed_Begin, well_formed_Commit,
      well_formed_Rollback, well_formed_CreateEntry, well_formed_Prepare,
      well_formed_Execute, well_formed_ReleaseStatement.
  - unfold ExecuteNamed. repeat case_match; simpl; auto using well_formed_Execute.
  - unfold DropStatement. case_match; auto using well_formed_ReleaseStatement.
Qed.

Lemma well_formed_run cmds : ∀ w, well_formed w → well_formed (run env w cmds).
Proof.
  induction cmds as [|cmd cmds IH]; intros w Hwf; simpl; [done|].
  apply IH. by apply well_formed_step.
Qed.

Lemma well_formed_reachable history : well_formed (run env initial_world history).
Proof. apply well_formed_run, well_formed_initial. Qed.

End WellFormed.

(** ** Statements after their owner is gone or their transaction undone *)

Section Invalidation.
Context `{FrontEnd} (env : Collaborators).

Lemma rejection_invalidated_iff (p : PreparedStatement.t) (args : list Value) :
  rejection p args = InvalidatedStatementError ↔
  PreparedStatement.success p = true
  ∧ length args = PreparedStatement.parameter_count p
  ∧ is_Some (cast_arguments args (PreparedStatement.parameter_types p)).
Proof.
  unfold rejection.
  destruct (PreparedStatement.success p); simpl; [|split; [done|by intros [? _]]].
  case_bool_decide as Hlen; simpl; [|split; [done|by intros (_ & ? & _)]].
  destruct (cast_arguments _ _) as [vals|]; split; try done.
  intros (_ & _ & [? ?]). done.
Qed.

Lemma DestroyConnection_gone w c : connections (DestroyConnection w c) !! c = None.
Proof.
  unfold DestroyConnection.
  destruct (connections w !! c) as [con|] eqn:Hc; [|done].
  simpl. apply lookup_delete_eq.
Qed.

Lemma doomed_DestroyConnection w c con refs created :
  well_formed w → connections w !! c = Some con →
  doomed (DestroyConnection w c) c (Connection.database con) refs created.
Proof.
  intros [_ Hcon] Hc. destruct (Hcon c con Hc) as (Hlt & Hd & _).
  destruct (evolves_DestroyConnection w c) as (Hnc & Hnd & _).
  repeat split; try lia; intros con'; rewrite DestroyConnection_gone; done.
Qed.

Lemma doomed_DestroyDatabase w c con refs created :
  well_formed w → connections w !! c = Some con →
  doomed (DestroyDatabase w (Connection.database con)) c (Connection.database con)
    refs created.
Proof.
  intros [_ Hcon] Hc. destruct (Hcon c con Hc) as (Hlt & Hd & _).
  repeat split; simpl; try done.
  - intros con'. rewrite Hc. by intros [= <-].
  - intros con' adb _. by rewrite lookup_delete_eq.
Qed.




(** A rollback also dooms, through the invalidation flag, the statements of
    the connection that reference a catalog entry of the transaction. *)
Lemma doomed_Rollback_dependents w c con tx adb r e refs created :
  well_formed w → connections w !! c = Some con →
  Connection.current_transaction con = Some tx →
  databases w !! Connection.database con = Some adb →
  r ∈ refs →
  Catalog.entries (AttachedDatabase.catalog adb) !! r = Some e →
  CatalogEntry.owning_transaction_id e = Some (Transaction.id tx) →
  doomed (Rollback w c).1 c (Connection.database con) refs created.
Proof.
  intros [Hdb Hcon] Hc Htx Hd Hr He Ho.
  destruct (Hcon c con Hc) as (Hlt & Hdlt & Hact).
  specialize (Hact tx Htx).
  unfold Rollback, resolve. rewrite Hc. simpl. rewrite Hd. simpl. rewrite Htx.
  unfold TransactionManager.Rollback. rewrite Hact. simpl.
  repeat split; simpl; try done.
  - intros con'. rewrite lookup_insert_eq. by intros [= <-].
  - intros con' adb' _. rewrite lookup_insert_eq. intros [= <-]. simpl. left.
    destruct (Invalidate_owned _ _ _ _ He Ho) as (e' & He' & Hf). eauto.
Qed.



(** C1 (amended): once the connection that owns a statement is destroyed, or
    the database that connection was bound to, every later [Execute] of the
    statement fails without changing anything, with one and the same error
    for given arguments; that error is the invalidated-statement error
    exactly when the statement was prepared successfully and the arguments
    pass the count and type checks, which come first. *)
Theorem destroyed_owner_rejects (history later : list Command)
    (p : PreparedStatement.t) (con : Connection.t) (args : list Value) :
  connections (run env initial_world history) !! PreparedStatement.owning_connection p
    = Some con →
  (∀ teardown,
     teardown = DestroyConnection (run env initial_world history)
                  (PreparedStatement.owning_connection p)
     ∨ teardown = DestroyDatabase (run env initial_world history)
                    (Connection.database con) →
     Execute (run env teardown later) p args
     = (run env teardown later, Err (rejection p args)))
  ∧ (rejection p args = InvalidatedStatementError ↔
     PreparedStatement.success p = true
     ∧ length args = PreparedStatement.parameter_count p
     ∧ is_Some (cast_arguments args (PreparedStatement.parameter_types p))).
Proof.
  intros Hc. split; [|apply rejection_invalidated_iff].
  pose proof (well_formed_reachable env history) as Hwf.
  intros teardown [->| ->];
    apply (doomed_Execute env _ p (Connection.database con)).
  - by apply doomed_DestroyConnection.
  - by apply doomed_DestroyDatabase.
Qed.


End Invalidation.

(** ** Dropped names *)

Section Registry.
Context `{FrontEnd} (env : Collaborators).

Lemma unregistered_set_database w d adb c nm :
  unregistered w c nm → unregistered (set_database w d adb) c nm.
Proof. intros Hu con Hc. exact (Hu con Hc). Qed.

Lemma unregistered_set_connection w c0 con0 con' c nm :
  unregistered w c nm → connections w !! c0 = Some con0 →
  (c0 = c → Connection.owned_prepared_statements con0 !! nm = None →
            Connection.owned_prepared_statements con' !! nm = None) →
  unregistered (set_connection w c0 con') c nm.
Proof.
  intros Hu Hc0 Hreg con. simpl. destruct (decide (c0 = c)) as [->|Hne].
  - rewrite lookup_insert_eq. intros [= <-]. eauto.
  - rewrite lookup_insert_ne by done. apply Hu.
Qed.

Lemma unregistered_delete_connection w c0 c nm :
  unregistered w c nm →
  unregistered {| databases := databases w; connections := delete c0 (connections w);
                  next_database_id := next_database_id w;
                  next_connection_id := next_connection_id w |} c nm.
Proof.
  intros Hu con. simpl. intros Hc. apply lookup_delete_Some in Hc as [_ Hc]. eauto.
Qed.

Lemma unregistered_Execute w p args c nm :
  unregistered w c nm → unregistered (Execute w p args).1 c nm.
Proof.
  intros Hu. unfold Execute. repeat case_match; simpl; try done.
  unfold run_bound_plan. repeat case_match; simpl; try done.
Qed.

Lemma unregistered_finish w c0 con0 adb r c nm :
  unregistered w c nm → connections w !! c0 = Some con0 →
  unregistered (finish w c0 con0 adb r).1 c nm.
Proof.
  intros Hu Hc0. destruct r as [[[tm cat] tx] res]. simpl.
  eapply unregistered_set_connection; [|exact Hc0|done].
  by apply unregistered_set_database.
Qed.

Lemma unregistered_step w cmd c nm :
  prepares_on c cmd = false → unregistered w c nm → unregistered (step env w cmd) c nm.
Proof.
  intros Hnp Hu.
  destruct cmd as [dbi|d|d|c0|c0|c0 ps|c0|c0 nm0 k ps|c0 nm0 sql|p args
                  |c0 nm0 args|c0 nm0|p]; simpl.
  - unfold Attach. case_match; simpl; done.
  - done.
  - unfold Connect. case_match; simpl; [|done].
    intros con. simpl. destruct (decide (next_connection_id w = c)) as [<-|Hne].
    + rewrite lookup_insert_eq. intros [= <-]. simpl. apply lookup_empty.
    + rewrite lookup_insert_ne by done. apply Hu.
  - unfold DestroyConnection.
    destruct (connections w !! c0) as [con0|] eqn:Hc0; [|done].
    match goal with
    | |- unregistered {| databases := databases ?w1; connections := _;
                         next_database_id := _; next_connection_id := _ |} _ _ =>
        apply (unregistered_delete_connection w1)
    end.
    repeat case_match; simpl; try done.
  - unfold Begin.
    destruct (resolve w c0) as [[con0 adb]|] eqn:Hr; [|done].
    apply resolve_Some in Hr as [Hc0 Hd].
    destruct (Connection.current_transaction con0); [done|]. simpl.
    eapply unregistered_set_connection; [|exact Hc0|done].
    by apply unregistered_set_database.
  - unfold Commit.
    destruct (resolve w c0) as [[con0 adb]|] eqn:Hr; [|done].
    apply resolve_Some in Hr as [Hc0 Hd].
    destruct (Connection.current_transaction con0); [|done].
    by apply unregistered_finish.
  - unfold Rollback.
    destruct (resolve w c0) as [[con0 adb]|] eqn:Hr; [|done].
    apply resolve_Some in Hr as [Hc0 Hd].
    destruct (Connection.current_transaction con0); [|done].
    by apply unregistered_finish.
  - unfold CreateEntry.
    destruct (resolve w c0) as [[con0 adb]|] eqn:Hr; [|done].
    apply resolve_Some in Hr as [Hc0 Hd].
    repeat case_match; simpl; try done.
    eapply unregistered_set_connection; [|exact Hc0|done].
    by apply unregistered_set_database.
  - simpl in Hnp. apply bool_decide_eq_false in Hnp.
    unfold Prepare.
    destruct (resolve w c0) as [[con0 adb]|] eqn:Hr; [|done].
    apply resolve_Some in Hr as [Hc0 Hd].
    repeat case_match; simpl; try done.
    eapply unregistered_set_connection; [done|exact Hc0|done].
  - by apply unregistered_Execute.
  - unfold ExecuteNamed. repeat case_match; simpl; try done.
    by apply unregistered_Execute.
  - unfold ReleaseStatement.
    destruct (connections w !! c0) as [con0|] eqn:Hc0; [|done].
    eapply unregistered_set_connection; [done|exact Hc0|].
    simpl. intros _ Hnone. destruct (decide (nm0 = nm)) as [->|Hne].
    + apply lookup_delete_eq.
    + by rewrite lookup_delete_ne.
  - unfold DropStatement. case_match; [|done].
    unfold ReleaseStatement.
    destruct (connections w !! _) as [con0|] eqn:Hc0; [|done].
    eapply unregistered_set_connection; [done|exact Hc0|].
    simpl. intros _ Hnone.
    match goal with |- delete ?n _ !! _ = None =>
      destruct (decide (n = nm)) as [->|Hne] end.
    + apply lookup_delete_eq.
    + by rewrite lookup_delete_ne.
Qed.

Lemma unregistered_run cmds : ∀ w c nm,
  forallb (λ cmd, negb (prepares_on c cmd)) cmds = true →
  unregistered w c nm → unregistered (run env w cmds) c nm.
Proof.
  induction cmds as [|cmd cmds IH]; intros w c nm Hall Hu; simpl; [done|].
  simpl in Hall. apply andb_true_iff in Hall as [Hcmd Hall].
  apply IH; [done|]. apply unregistered_step; [|done].
  by apply negb_true_iff.
Qed.

(** C7: named execution looks the name up in the registry of the connection:
    a registered name runs the statement registered under it. After the
    statement was dropped, by explicit release or by its destructor,
    [EXECUTE name] fails with the not-found error and changes nothing; as
    long as nothing is prepared on the connection, the name stays
    unregistered and named execution keeps failing that way. *)
Theorem dropped_name_not_found (w dropped : World) (p : PreparedStatement.t)
    (nm : string) (con : Connection.t) (args : list Value) (later : list Command) :
  PreparedStatement.name p = Some nm →
  connections w !! PreparedStatement.owning_connection p = Some con →
  dropped = DropStatement w p
  ∨ dropped = ReleaseStatement w (PreparedStatement.owning_connection p) nm →
  (∀ q, Connection.owned_prepared_statements con !! nm = Some q →
        ExecuteNamed w (PreparedStatement.owning_connection p) nm args = Execute w q args)
  ∧ ExecuteNamed dropped (PreparedStatement.owning_connection p) nm args
    = (dropped, Err (NotFoundError nm))
  ∧ (forallb (λ cmd, negb (prepares_on (PreparedStatement.owning_connection p) cmd)) later
       = true →
     unregistered (run env dropped later) (PreparedStatement.owning_connection p) nm
     ∧ ∀ con', connections (run env dropped later)
                 !! PreparedStatement.owning_connection p = Some con' →
               ExecuteNamed (run env dropped later)
                 (PreparedStatement.owning_connection p) nm args
               = (run env dropped later, Err (NotFoundError nm))).
Proof.
  intros Hnm Hc Hdrop.
  assert (dropped = ReleaseStatement w (PreparedStatement.owning_connection p) nm) as ->.
  { destruct Hdrop as [->| ->]; [|done]. unfold DropStatement. by rewrite Hnm. }
  pose proof (ReleaseStatement_unregistered w (PreparedStatement.owning_connection p) nm)
    as Hu.
  split; [|split].
  - intros q Hq. unfold ExecuteNamed. by rewrite Hc, Hq.
  - destruct (ReleaseStatement_alive w _ (PreparedStatement.owning_connection p) nm
                (mk_is_Some _ _ Hc)) as [con1 Hc1].
    by apply (ExecuteNamed_unregistered _ _ con1).
  - intros Hall. pose proof (unregistered_run later _ _ _ Hall Hu) as Hu'.
    split; [done|]. intros con' Hc'.
    by apply (ExecuteNamed_unregistered _ _ con').
Qed.

End Registry.

(** ** The scenarios of test_prepared_api.cpp, replayed *)

Section Scenarios.
#[local] Existing Instance toy_front_end.

Example prepared_statement_runs :
  (Execute (Prepare toy_world 0 None add_sql).1 add_statement [VInteger 3; VInteger 5]).2
  = Ok [8%Z].
Proof. vm_compute. reflexivity. Qed.

Example rollback_scenario :
  let w := run toy_env initial_world (in_transaction ++ [CmdPrepare 0 None count_sql]) in
  (Execute w count_statement [VInteger 12]).2 = Ok [1%Z]
  ∧ (Execute (Rollback w 0).1 count_statement [VInteger 12]).2
    = Err InvalidatedStatementError.
Proof. split; vm_compute; reflexivity. Qed.

(** The test: two statements prepared after [BEGIN TRANSACTION; CREATE TABLE
    a] run inside the transaction and fail after [ROLLBACK]. *)
Example rollback_test_case :
  let first := Prepare (run toy_env initial_world in_transaction) 0 None count_sql in
  let second := Prepare first.1 0 None "SELECT COUNT(*) FROM a WHERE i>$1" in
  (Execute second.1 first.2 [VInteger 12]).2 = Ok [1%Z]
  ∧ (Execute second.1 second.2 [VInteger 11]).2 = Ok [2%Z]
  ∧ (Rollback second.1 0).2 = Ok ()
  ∧ (Execute (Rollback second.1 0).1 first.2 [VInteger 12]).2
    = Err InvalidatedStatementError
  ∧ (Execute (Rollback second.1 0).1 second.2 [VInteger 11]).2
    = Err InvalidatedStatementError.
Proof. repeat split; vm_compute; reflexivity. Qed.

Lemma destroyed_owner_rejects_witness :
  connections (run toy_env initial_world (setup ++ [CmdPrepare 0 None add_sql]))
    !! PreparedStatement.owning_connection add_statement
    = Some (connection_at
              (run toy_env initial_world (setup ++ [CmdPrepare 0 None add_sql])) 0)
  ∧ ((∀ teardown,
        teardown = DestroyConnection
                     (run toy_env initial_world (setup ++ [CmdPrepare 0 None add_sql]))
                     (PreparedStatement.owning_connection add_statement)
        ∨ teardown = DestroyDatabase
                       (run toy_env initial_world (setup ++ [CmdPrepare 0 None add_sql]))
                       (Connection.database
                          (connection_at
                             (run toy_env initial_world
                                (setup ++ [CmdPrepare 0 None add_sql])) 0)) →
        Execute (run toy_env teardown [CmdConnect 0]) add_statement
          [VInteger 3; VInteger 5]
        = (run toy_env teardown [CmdConnect 0],
           Err (rejection add_statement [VInteger 3; VInteger 5])))
     ∧ (rejection add_statement [VInteger 3; VInteger 5] = InvalidatedStatementError ↔
        PreparedStatement.success add_statement = true
        ∧ length [VInteger 3; VInteger 5]
          = PreparedStatement.parameter_count add_statement
        ∧ is_Some (cast_arguments [VInteger 3; VInteger 5]
                     (PreparedStatement.parameter_types add_statement)))).
Proof.
  assert (connections (run toy_env initial_world (setup ++ [CmdPrepare 0 None add_sql]))
            !! PreparedStatement.owning_connection add_statement
          = Some (connection_at
                    (run toy_env initial_world (setup ++ [CmdPrepare 0 None add_sql])) 0))
    as Hc.
  { apply (lookup_connection_at _ 0). vm_compute. reflexivity. }
  split; [exact Hc|].
  exact (destroyed_owner_rejects toy_env (setup ++ [CmdPrepare 0 None add_sql])
           [CmdConnect 0] add_statement _ [VInteger 3; VInteger 5] Hc).
Defined.

(** The test: after [con.reset()], and after [db.reset()], [Execute(3, 5)]
    fails. *)
Example destroyed_owner_scenario :
  let w := run toy_env initial_world (setup ++ [CmdPrepare 0 None add_sql]) in
  (Execute w add_statement [VInteger 3; VInteger 5]).2 = Ok [8%Z]
  ∧ (Execute (DestroyConnection w 0) add_statement [VInteger 3; VInteger 5]).2
    = Err InvalidatedStatementError
  ∧ (Execute (DestroyDatabase w 0) add_statement [VInteger 3; VInteger 5]).2
    = Err InvalidatedStatementError
  ∧ PreparedStatement.success (Prepare (DestroyDatabase w 0) 0 None add_sql).2 = false.
Proof. repeat split; vm_compute; reflexivity. Qed.

(** C1, as stated, fails: with the owning connection destroyed, an [Execute]
    with one argument for two parameters is rejected with the parameter-count
    error, not with the invalidated-statement error. *)
Lemma destroyed_owner_other_error :
  let w := run toy_env initial_world (setup ++ [CmdPrepare 0 None add_sql]) in
  is_Some (connections w !! PreparedStatement.owning_connection add_statement)
  ∧ connections (DestroyConnection w 0) !! PreparedStatement.owning_connection add_statement
    = None
  ∧ (Execute (DestroyConnection w 0) add_statement [VInteger 3]).2
    = Err (ParameterError WrongArity)
  ∧ (Execute (DestroyConnection w 0) add_statement [VInteger 3]).2
    ≠ Err InvalidatedStatementError.
Proof.
  split; [|split; [|split]].
  - apply (bool_decide_unpack _). vm_compute. exact I.
  - vm_compute. reflexivity.
  - vm_compute. reflexivity.
  - intros Heq. vm_compute in Heq. discriminate Heq.
Qed.


(** A statement prepared inside the transaction that references none of its
    catalog entries runs while the transaction is open and is rejected once
    it is undone, by [ROLLBACK] as by a commit that fails to persist; the
    statement prepared before the transaction began is not affected. *)
Example rollback_of_creating_transaction :
  let w := run toy_env initial_world (in_transaction ++ [CmdPrepare 0 None "SELECT 42"]) in
  PreparedStatement.creation_transaction_id constant_statement = Some 0
  ∧ (Execute w constant_statement []).2 = Ok [42%Z]
  ∧ (Execute (Rollback w 0).1 constant_statement []).2 = Err InvalidatedStatementError
  ∧ (Commit w 0 false).2 = Err CommitError
  ∧ (Execute (Commit w 0 false).1 constant_statement []).2
    = Err InvalidatedStatementError
  ∧ (Execute (Commit w 0 true).1 constant_statement []).2 = Ok [42%Z]
  ∧ PreparedStatement.creation_transaction_id add_statement = None
  ∧ (Execute (Rollback (run toy_env (Prepare toy_world 0 None add_sql).1 [CmdBegin 0]) 0).1
       add_statement [VInteger 3; VInteger 5]).2 = Ok [8%Z].
Proof. repeat split; vm_compute; reflexivity. Qed.

Lemma prepare_captures_errors_witness :
  count_statements two_statements ≠ 1
  ∧ PreparedStatement.success (Prepare toy_world 0 None two_statements).2 = false
  ∧ (Prepare toy_world 0 None two_statements).1 = toy_world
  ∧ ∃ msg, PreparedStatement.error (Prepare toy_world 0 None two_statements).2 = Some msg
           ∧ ∀ w' args, Execute w' (Prepare toy_world 0 None two_statements).2 args
                        = (w', Err (ParseOrBindError msg)).
Proof.
  assert (count_statements two_statements ≠ 1) as Hcount.
  { vm_compute. lia. }
  split; [exact Hcount|].
  apply (prepare_captures_errors toy_world 0 None two_statements).
  left. exact Hcount.
Defined.

(** The three ways to fail at prepare time, on the texts of the test. *)
Example prepare_failures :
  count_statements two_statements = 2
  ∧ PreparedStatement.error failed_statement = Some "expected exactly one statement"
  ∧ parse "SELEC COUNT(*) FROM a WHERE i=$1" = inl "syntax error"
  ∧ PreparedStatement.error (Prepare toy_world 0 None "SELEC COUNT(*) FROM a WHERE i=$1").2
    = Some "syntax error"
  ∧ PreparedStatement.error (Prepare toy_world 0 None count_sql).2
    = Some "unresolved catalog reference"
  ∧ (Execute toy_world failed_statement [VInteger 12]).2
    = Err (ParseOrBindError "expected exactly one statement").
Proof. repeat split; vm_compute; reflexivity. Qed.

Lemma execute_wrong_arity_witness :
  length [VInteger 11] ≠ PreparedStatement.parameter_count add_statement
  ∧ Execute toy_world add_statement [VInteger 11]
    = (toy_world,
       Err (if PreparedStatement.success add_statement then ParameterError WrongArity
            else ParseOrBindError (default "" (PreparedStatement.error add_statement)))).
Proof.
  assert (length [VInteger 11] ≠ PreparedStatement.parameter_count add_statement) as Hlen.
  { vm_compute. lia. }
  split; [exact Hlen|].
  exact (execute_wrong_arity toy_world add_statement [VInteger 11] Hlen).
Defined.

Example wrong_arity_scenario :
  (Execute toy_world add_statement [VInteger 11]).2 = Err (ParameterError WrongArity)
  ∧ (Execute toy_world add_statement [VInteger 11; VInteger 13; VInteger 17]).2
    = Err (ParameterError WrongArity).
Proof. split; vm_compute; reflexivity. Qed.

(** C6, as stated, fails for a statement that failed to prepare: an argument
    list of the wrong length gets the captured compile-time error, not the
    parameter-count error. *)
Lemma wrong_arity_on_failed_statement :
  PreparedStatement.success failed_statement = false
  ∧ length [VInteger 12; VInteger 13] ≠ PreparedStatement.parameter_count failed_statement
  ∧ Execute toy_world failed_statement [VInteger 12; VInteger 13]
    = (toy_world, Err (ParseOrBindError "expected exactly one statement"))
  ∧ (Execute toy_world failed_statement [VInteger 12; VInteger 13]).2
    ≠ Err (ParameterError WrongArity).
Proof.
  split; [|split; [|split]].
  - vm_compute. reflexivity.
  - vm_compute. lia.
  - vm_compute. reflexivity.
  - intros Heq. vm_compute in Heq. discriminate Heq.
Qed.

Lemma dropped_name_not_found_witness :
  (ExecuteNamed (Prepare toy_world 0 None add_sql).1 0 (generated_name 0)
     [VInteger 3; VInteger 5]).2 = Ok [8%Z]
  ∧ ExecuteNamed (DropStatement (Prepare toy_world 0 None add_sql).1 add_statement)
      (PreparedStatement.owning_connection add_statement) (generated_name 0)
      [VInteger 3; VInteger 5]
    = (DropStatement (Prepare toy_world 0 None add_sql).1 add_statement,
       Err (NotFoundError (generated_name 0))).
Proof.
  split; [vm_compute; reflexivity|].
  refine (proj1 (proj2 (dropped_name_not_found toy_env (Prepare toy_world 0 None add_sql).1
            (DropStatement (Prepare toy_world 0 None add_sql).1 add_statement)
            add_statement (generated_name 0)
            (connection_at (Prepare toy_world 0 None add_sql).1 0)
            [VInteger 3; VInteger 5] [] _ _ (or_introl eq_refl)))).
  - vm_compute. reflexivity.
  - apply (lookup_connection_at _ 0). vm_compute. reflexivity.
Defined.

End Scenarios.

(** ** The ICU extension *)

Section HexDigits.

Lemma hex_digit_compare i j :
  i < 16 → j < 16 →
  Ascii.compare (ICU.hex_digit i) (ICU.hex_digit j) = Nat.compare i j.
Proof.
  intros Hi Hj.
  do 16 (destruct i as [|i]; [do 16 (destruct j as [|j]; [reflexivity|]); lia|]).
  lia.
Qed.

Lemma hex_digit_is_hex i : i < 16 → ICU.is_hex_digit (ICU.hex_digit i) = true.
Proof.
  intros Hi. do 16 (destruct i as [|i]; [reflexivity|]). lia.
Qed.

Lemma uint8_bound b : ICU.uint8 b < 256.
Proof. unfold ICU.uint8. apply Nat.mod_upper_bound. lia. Qed.

Lemma high_digit_bound b : ICU.uint8 b / 16 < 16.
Proof.
  pose proof (uint8_bound b). apply Nat.Div0.div_lt_upper_bound. lia.
Qed.

Lemma low_digit_bound b : ICU.uint8 b mod 16 < 16.
Proof. apply Nat.mod_upper_bound. lia. Qed.

Lemma byte_compare_digits a b :
  Nat.compare a b =
    match Nat.compare (a / 16) (b / 16) with
    | Eq => Nat.compare (a mod 16) (b mod 16)
    | c => c
    end.
Proof.
  pose proof (Nat.div_mod a 16 ltac:(lia)) as Ha.
  pose proof (Nat.div_mod b 16 ltac:(lia)) as Hb.
  pose proof (Nat.mod_upper_bound a 16 ltac:(lia)) as Ha'.
  pose proof (Nat.mod_upper_bound b 16 ltac:(lia)) as Hb'.
  destruct (Nat.compare_spec (a / 16) (b / 16)) as [Hq|Hq|Hq].
  - destruct (Nat.compare_spec (a mod 16) (b mod 16)) as [Hr|Hr|Hr].
    + apply Nat.compare_eq_iff. lia.
    + apply Nat.compare_lt_iff. lia.
    + apply Nat.compare_gt_iff. lia.
  - apply Nat.compare_lt_iff. lia.
  - apply Nat.compare_gt_iff. lia.
Qed.

Lemma hex_of_bytes_compare k1 : ∀ k2,
  String.compare (String.string_of_list_ascii (ICU.hex_of_bytes k1))
                 (String.string_of_list_ascii (ICU.hex_of_bytes k2))
  = ICU.bytes_compare (ICU.uint8 <$> k1) (ICU.uint8 <$> k2).
Proof.
  induction k1 as [|b1 k1 IH]; intros [|b2 k2]; try reflexivity.
  cbn [ICU.hex_of_bytes String.string_of_list_ascii String.compare fmap list_fmap
       ICU.bytes_compare].
  rewrite !hex_digit_compare by auto using high_digit_bound, low_digit_bound.
  rewrite (byte_compare_digits (ICU.uint8 b1) (ICU.uint8 b2)).
  destruct (Nat.compare (ICU.uint8 b1 / 16) (ICU.uint8 b2 / 16)); try reflexivity.
  destruct (Nat.compare (ICU.uint8 b1 mod 16) (ICU.uint8 b2 mod 16)); try reflexivity.
  apply IH.
Qed.

Lemma hex_of_bytes_length k : length (ICU.hex_of_bytes k) = 2 * length k.
Proof. induction k as [|b k IH]; simpl; [reflexivity|]. rewrite IH. lia. Qed.

Lemma hex_of_bytes_digits k : forallb ICU.is_hex_digit (ICU.hex_of_bytes k) = true.
Proof.
  induction k as [|b k IH]; [reflexivity|].
  cbn [ICU.hex_of_bytes forallb].
  rewrite !hex_digit_is_hex by auto using high_digit_bound, low_digit_bound.
  exact IH.
Qed.

End HexDigits.

Section SortKeys.
Context `{lib : ICU.Library}.

(** Inside the buffer and without a failing assertion, the loop runs to
    its end. *)
Lemma hex_loop_in_bounds count : ∀ buffer first,
  first + count ≤ length buffer →
  (ICU.D_ASSERT_checks = true →
   Forall (λ byte, ICU.uint8 byte ≠ 0) (take count (drop first buffer))) →
  ICU.hex_loop buffer first count
  = Some (ICU.hex_of_bytes (take count (drop first buffer))).
Proof.
  induction count as [|count IH]; intros buffer first Hlen Hzero; simpl; [reflexivity|].
  destruct (buffer !! first) as [b|] eqn:Hb.
  - rewrite (drop_S buffer b first Hb) in Hzero |- *. cbn [take] in Hzero |- *.
    assert (ICU.D_ASSERT_checks && (ICU.uint8 b =? 0) = false) as ->.
    { destruct ICU.D_ASSERT_checks; [|done]. simpl.
      apply Nat.eqb_neq. by apply (Forall_cons_1 _ _ _ (Hzero eq_refl)). }
    rewrite IH; [done|lia|].
    intros Hchecks. by apply (Forall_cons_1 _ _ _ (Hzero Hchecks)).
  - apply lookup_ge_None in Hb. lia.
Qed.

Lemma hex_loop_Some count : ∀ buffer first chars,
  ICU.hex_loop buffer first count = Some chars →
  chars = ICU.hex_of_bytes (take count (drop first buffer))
  ∧ length chars = 2 * count.
Proof.
  induction count as [|count IH]; intros buffer first chars; simpl.
  - intros [= <-]. done.
  - destruct (buffer !! first) as [b|] eqn:Hb; [|done].
    destruct (ICU.D_ASSERT_checks && (ICU.uint8 b =? 0)); [done|].
    destruct (ICU.hex_loop buffer (S first) count) as [rest|] eqn:Hrest; [|done].
    intros [= <-]. destruct (IH _ _ _ Hrest) as [-> Hlen].
    rewrite (drop_S buffer b first Hb). simpl. split; [done|]. rewrite Hlen. lia.
Qed.

(** A checked assertion stops the loop at a zero byte. *)
Lemma hex_loop_zero_byte buffer first count :
  ICU.D_ASSERT_checks = true →
  (∃ b, buffer !! first = Some b ∧ ICU.uint8 b = 0) →
  ICU.hex_loop buffer first (S count) = None.
Proof.
  intros Hchecks (b & Hb & Hzero). simpl. by rewrite Hb, Hchecks, Hzero.
Qed.

Lemma string_of_list_ascii_length l :
  String.length (String.string_of_list_ascii l) = length l.
Proof. induction l as [|c l IH]; simpl; [done|]. by rewrite IH. Qed.

(** The captured buffer after [ICUGetSortKey]: it holds the whole key, its
    recorded size is its length, and it has not shrunk. *)
Lemma ICUGetSortKey_spec sort_key c input buffer :
  ICU.sort_key_contract sort_key →
  (ICU.ICUGetSortKey c input buffer (length buffer)).1.1 = length (sort_key c input)
  ∧ (ICU.ICUGetSortKey c input buffer (length buffer)).2
    = max (length buffer) (length (sort_key c input))
  ∧ length (ICU.ICUGetSortKey c input buffer (length buffer)).1.2
    = (ICU.ICUGetSortKey c input buffer (length buffer)).2
  ∧ take (length (sort_key c input)) (ICU.ICUGetSortKey c input buffer (length buffer)).1.2
    = sort_key c input.
Proof.
  intros [Hnew Hget]. unfold ICU.ICUGetSortKey.
  destruct (Hget c input buffer (length buffer) (le_n _)) as (Hsize & Hlen & Hfit).
  destruct (ICU.getSortKey c input buffer (length buffer)) as [string_size buffer1].
  simpl in Hsize, Hlen, Hfit. subst string_size.
  destruct (Nat.ltb_spec (length buffer) (length (sort_key c input))) as [Hsmall|Hbig].
  - pose proof (Hnew (length (sort_key c input))) as Hfresh.
    destruct (Hget c input (ICU.uninitialized (length (sort_key c input)))
                (length (sort_key c input)) ltac:(lia)) as (Hsize2 & Hlen2 & Hfit2).
    destruct (ICU.getSortKey c input _ (length (sort_key c input)))
      as [string_size' buffer3].
    simpl in *. subst string_size'. repeat split; try lia. auto.
  - simpl. repeat split; try lia. auto.
Qed.

Lemma collate_row_spec sort_key c input buffer :
  ICU.sort_key_contract sort_key → sort_key c input ≠ [] →
  (ICU.D_ASSERT_checks = true → ICU.zero_free (sort_key c input)) →
  ∃ buffer',
    ICU.collate_row c (buffer, length buffer) input
    = Some (String.string_of_list_ascii
              (ICU.hex_of_bytes (ICU.key_body (sort_key c input))),
            (buffer', length buffer'))
    ∧ length buffer' = max (length buffer) (length (sort_key c input)).
Proof.
  intros Hcontract Hkey Hzero.
  destruct (ICUGetSortKey_spec sort_key c input buffer Hcontract)
    as (Hsize & Hcap & Hlen & Htake).
  unfold ICU.collate_row. simpl.
  destruct (ICU.ICUGetSortKey c input buffer (length buffer))
    as [[string_size buffer'] buffer_size'].
  simpl in *. subst string_size.
  assert (0 < length (sort_key c input)) as Hpos.
  { destruct (sort_key c input); [done|simpl; lia]. }
  destruct (Nat.eqb_spec (length (sort_key c input)) 0) as [Hz|_]; [lia|].
  assert (take (length (sort_key c input) - 1) (drop 0 buffer')
          = ICU.key_body (sort_key c input)) as Hbody.
  { rewrite drop_0. unfold ICU.key_body.
    remember (length (sort_key c input)) as n eqn:Hn.
    rewrite <- Htake, take_take. f_equal. lia. }
  rewrite hex_loop_in_bounds; [|lia|by rewrite Hbody].
  exists buffer'. split; [|lia].
  by rewrite Hbody, Hlen.
Qed.

Lemma execute_rows_spec sort_key c inputs : ∀ buffer,
  ICU.sort_key_contract sort_key →
  Forall (λ input, sort_key c input ≠ []) inputs →
  (ICU.D_ASSERT_checks = true →
   Forall (λ input, ICU.zero_free (sort_key c input)) inputs) →
  ∃ buffer',
    ICU.execute_rows c (buffer, length buffer) inputs
    = Some ((λ input, String.string_of_list_ascii
                        (ICU.hex_of_bytes (ICU.key_body (sort_key c input)))) <$> inputs,
            (buffer', length buffer'))
    ∧ length buffer ≤ length buffer'.
Proof.
  induction inputs as [|input inputs IH]; intros buffer Hcontract Hkeys Hzero.
  - exists buffer. done.
  - apply Forall_cons in Hkeys as [Hkey Hkeys].
    destruct (collate_row_spec sort_key c input buffer Hcontract Hkey)
      as (buffer1 & Hrow & Hlen1).
    { intros Hchecks. by apply (Forall_cons_1 _ _ _ (Hzero Hchecks)). }
    destruct (IH buffer1 Hcontract Hkeys) as (buffer2 & Hrest & Hlen2).
    { intros Hchecks. by apply (Forall_cons_1 _ _ _ (Hzero Hchecks)). }
    exists buffer2. cbn [ICU.execute_rows]. rewrite Hrow, Hrest.
    split; [done|lia].
Qed.

Lemma bytes_compare_Eq k1 : ∀ k2, ICU.bytes_compare k1 k2 = Eq ↔ k1 = k2.
Proof.
  induction k1 as [|b1 k1 IH]; intros [|b2 k2]; simpl; try done.
  destruct (Nat.compare_spec b1 b2) as [->|Hlt|Hgt].
  - rewrite IH. split; [by intros ->|by intros [= ->]].
  - split; [done|]. intros [= -> _]. lia.
  - split; [done|]. intros [= -> _]. lia.
Qed.

Lemma string_compare_Eq s1 s2 : String.compare s1 s2 = Eq ↔ s1 = s2.
Proof.
  split; [apply String.compare_eq_iff|]. intros ->.
  induction s2 as [|c s IH]; simpl; [done|].
  unfold Ascii.compare. by rewrite N.compare_refl.
Qed.

End SortKeys.

Lemma toy_sort_key_contract :
  @ICU.sort_key_contract ICU.toy_library (λ _, ICU.toy_key).
Proof.
  split; [intros n; apply length_replicate|].
  intros c input buffer capacity Hcap. simpl. unfold ICU.toy_getSortKey. simpl.
  split; [done|]. split.
  - rewrite length_take, length_app, length_drop, !length_take. lia.
  - intros Hfit. rewrite (take_ge (ICU.toy_key input) capacity) by lia.
    rewrite take_take, take_app_le by lia.
    rewrite take_ge; [done|lia].
Qed.

Section SortKeyProperties.
Context `{lib : ICU.Library}.

Lemma ICUCollateFunction_spec (sort_key : ICU.Collator → string → list nat)
    (info : ICU.IcuBindData) (inputs : list string) :
  ICU.sort_key_contract sort_key →
  Forall (λ input, sort_key (ICU.collator info) input ≠ []) inputs →
  (ICU.D_ASSERT_checks = true →
   Forall (λ input, ICU.zero_free (sort_key (ICU.collator info) input)) inputs) →
  ICU.ICUCollateFunction info inputs
  = Some ((λ input, String.string_of_list_ascii
                      (ICU.hex_of_bytes
                         (ICU.key_body (sort_key (ICU.collator info) input))))
            <$> inputs).
Proof.
  intros Hcontract Hkeys Hzero. unfold ICU.ICUCollateFunction.
  destruct (execute_rows_spec sort_key (ICU.collator info) inputs [] Hcontract Hkeys
              Hzero) as (buffer' & Hrows & _).
  cbn [length] in Hrows. rewrite Hrows. done.
Qed.

(** X1: when the library keeps its contract, [ICUGetSortKey] returns the
    length of the sort key and leaves the whole key at the start of the
    buffer; the buffer has grown to the larger of its old size and the key
    length, and the recorded size is its length. *)
Theorem sort_key_fetched_whole (sort_key : ICU.Collator → string → list nat)
    (c : ICU.Collator) (input : string) (buffer : list nat) :
  ICU.sort_key_contract sort_key →
  (ICU.ICUGetSortKey c input buffer (length buffer)).1.1 = length (sort_key c input)
  ∧ (ICU.ICUGetSortKey c input buffer (length buffer)).2
    = max (length buffer) (length (sort_key c input))
  ∧ length (ICU.ICUGetSortKey c input buffer (length buffer)).1.2
    = (ICU.ICUGetSortKey c input buffer (length buffer)).2
  ∧ take (length (sort_key c input)) (ICU.ICUGetSortKey c input buffer (length buffer)).1.2
    = sort_key c input.
Proof. apply ICUGetSortKey_spec. Qed.

(** X2: whatever the collator does, a result the collation function produces
    for a row has two characters per byte of the reported key size minus the
    terminator, all of them among 0-9 and A-F. *)
Theorem collate_row_output (c : ICU.Collator) (state state' : list nat * nat)
    (input out : string) :
  ICU.collate_row c state input = Some (out, state') →
  String.length out = 2 * ((ICU.ICUGetSortKey c input state.1 state.2).1.1 - 1)
  ∧ forallb ICU.is_hex_digit (String.list_ascii_of_string out) = true.
Proof.
  unfold ICU.collate_row.
  destruct (ICU.ICUGetSortKey c input state.1 state.2)
    as [[string_size buffer] buffer_size]. simpl.
  destruct (string_size =? 0); [done|].
  destruct (ICU.hex_loop buffer 0 (string_size - 1)) as [chars|] eqn:Hloop; [|done].
  intros [= <- _]. apply hex_loop_Some in Hloop as [Hchars Hlen].
  rewrite string_of_list_ascii_length, String.list_ascii_of_string_of_list_ascii.
  split; [done|]. rewrite Hchars. apply hex_of_bytes_digits.
Qed.

(** X3: when the library keeps its contract, no sort key is empty and - in
    a build where [D_ASSERT] is checked - no sort key has a zero byte before
    its terminator, the collation function neither reads past its buffer nor
    fails its assertion, and the result of every row is the hexadecimal form
    of that row's own sort key without the terminator: reusing the buffer
    from row to row leaks nothing. *)
Theorem collate_function_rows (sort_key : ICU.Collator → string → list nat)
    (info : ICU.IcuBindData) (inputs : list string) :
  ICU.sort_key_contract sort_key →
  Forall (λ input, sort_key (ICU.collator info) input ≠ []) inputs →
  (ICU.D_ASSERT_checks = true →
   Forall (λ input, ICU.zero_free (sort_key (ICU.collator info) input)) inputs) →
  ICU.ICUCollateFunction info inputs
  = Some ((λ input, String.string_of_list_ascii
                      (ICU.hex_of_bytes
                         (ICU.key_body (sort_key (ICU.collator info) input))))
            <$> inputs).
Proof. apply ICUCollateFunction_spec. Qed.


(** X5: for two rows whose sort keys are not empty and - in a build where
    [D_ASSERT] is checked - have no zero byte before the terminator, the
    collation function produces two results, and they are the same exactly
    when the two sort keys, without the terminator, are the same bytes:
    distinct keys are never merged. *)
Theorem collation_results_distinct (sort_key : ICU.Collator → string → list nat)
    (info : ICU.IcuBindData) (s1 s2 : string) :
  ICU.sort_key_contract sort_key →
  sort_key (ICU.collator info) s1 ≠ [] →
  sort_key (ICU.collator info) s2 ≠ [] →
  (ICU.D_ASSERT_checks = true →
   ICU.zero_free (sort_key (ICU.collator info) s1)
   ∧ ICU.zero_free (sort_key (ICU.collator info) s2)) →
  ∃ o1 o2,
    ICU.ICUCollateFunction info [s1; s2] = Some [o1; o2]
    ∧ (o1 = o2 ↔
       ICU.uint8 <$> ICU.key_body (sort_key (ICU.collator info) s1)
       = ICU.uint8 <$> ICU.key_body (sort_key (ICU.collator info) s2)).
Proof.
  intros Hcontract H1 H2 Hzero. eexists _, _. split.
  - rewrite (ICUCollateFunction_spec sort_key); [reflexivity|done| |].
    + by repeat constructor.
    + intros Hchecks. destruct (Hzero Hchecks). by repeat constructor.
  - rewrite <- string_compare_Eq, hex_of_bytes_compare. apply bytes_compare_Eq.
Qed.

End SortKeyProperties.

Section BindProperties.
Context `{lib : ICU.Library}.

(** X6: [ICU_SORT_KEY] whose collation argument is a common subexpression is
    always rejected as a non-constant collation, whatever the child of the
    subexpression is and whatever the other arguments are; the argument is
    never evaluated. *)
Theorem sort_key_bind_rejects_cse (E : Type) (HE : Planner.Expression E)
    (cse : Planner.CommonSubExpression E) (first : ICU.AnyExpression)
    (rest : list ICU.AnyExpression) :
  ICU.ICUSortKeyBind
    (first
     :: {| ICU.expression_class := Planner.CommonSubExpression E;
           ICU.expression_methods := Planner.CommonSubExpression_Expression;
           ICU.expression := cse |}
     :: rest)
  = Some (inl (ICU.NotImplementedException
       "ICU_SORT_KEY(VARCHAR, VARCHAR) with non-constant collation is not supported")).
Proof. reflexivity. Qed.

(** X7: for a constant, non-null collation argument, [ICUSortKeyBind] gives
    exactly what [ICUCollateBind] gives for the collation function of that
    name: the same bind data or the same exception. *)
Theorem sort_key_bind_agrees_with_collate_bind (arguments : list ICU.AnyExpression)
    (arg : ICU.AnyExpression) (val : ICU.VarcharValue) :
  arguments !! 1 = Some arg →
  ICU.IsFoldable arg = true →
  ICU.EvaluateScalarAsVarchar arg = inr val →
  ICU.is_null val = false →
  ICU.ICUSortKeyBind arguments
  = Some (ICU.ICUCollateBind (ICU.name (ICU.GetICUFunction (ICU.str_value val)))).
Proof.
  intros Harg Hfold Heval Hnull. unfold ICU.ICUSortKeyBind, ICU.ICUCollateBind.
  rewrite Harg, Hfold, Heval, Hnull. reflexivity.
Qed.

(** X8: [ICUCollateBind] throws the internal exception exactly when the name
    of the function does not split into one or two parts, never the
    not-implemented exception; bind data it returns holds the first part as
    language, the second part, if any, as country, and the collator ICU
    created for the two. *)
Theorem collate_bind_outcomes (bound_function_name : string) :
  (∀ msg, ICU.ICUCollateBind bound_function_name = inl (ICU.InternalException msg) ↔
          msg = "Expected one or two splits"
          ∧ length (ICU.Split bound_function_name "_") ≠ 1
          ∧ length (ICU.Split bound_function_name "_") ≠ 2)
  ∧ (∀ msg, ICU.ICUCollateBind bound_function_name
            ≠ inl (ICU.NotImplementedException msg))
  ∧ ∀ info, ICU.ICUCollateBind bound_function_name = inr info →
            (ICU.Split bound_function_name "_" = [ICU.language info]
             ∧ ICU.country info = ""
             ∨ ICU.Split bound_function_name "_" = [ICU.language info; ICU.country info])
            ∧ ICU.createInstance (ICU.language info) (ICU.country info)
              = Some (ICU.collator info).
Proof.
  unfold ICU.ICUCollateBind, ICU.bind_splits, ICU.IcuBindData_create.
  destruct (ICU.Split bound_function_name "_") as [|l [|c [|x rest]]]; simpl.
  - split; [|split]; [|done|done].
    intros msg. split; [by intros [= <-]|by intros [-> _]].
  - destruct (ICU.createInstance l "") as [col|] eqn:Hc.
    + split; [|split]; [|done|].
      * intros msg. split; [done|]. intros (_ & Hne & _). done.
      * intros info [= <-]. simpl. auto.
    + split; [|split]; [|done|done].
      intros msg. split; [done|]. intros (_ & Hne & _). done.
  - destruct (ICU.createInstance l c) as [col|] eqn:Hc.
    + split; [|split]; [|done|].
      * intros msg. split; [done|]. intros (_ & _ & Hne). done.
      * intros info [= <-]. simpl. auto.
    + split; [|split]; [|done|done].
      intros msg. split; [done|]. intros (_ & _ & Hne). done.
  - split; [|split]; [|done|done].
    intros msg. split; [by intros [= <-]|by intros [-> _]].
Qed.

End BindProperties.

Section TimeZones.
Context `{lib : ICU.Library}.

Lemma zone_loop_spec now_p room : ∀ zones,
  (ICU.zone_loop now_p room zones).1
  = ICU.row_of now_p <$> take room (ICU.good_prefix now_p zones)
  ∧ (ICU.zone_loop now_p room zones).2
    = drop (if decide (room ≤ length (ICU.good_prefix now_p zones)) then room
            else S (length (ICU.good_prefix now_p zones))) zones.
Proof.
  induction room as [|room IH]; intros zones; [done|].
  destruct zones as [|[|long_id] rest]; try done.
  cbn [ICU.zone_loop ICU.good_prefix ICU.yields_row].
  destruct (ICU.getOffset long_id now_p) as [[raw dst]|] eqn:Hoff.
  - rewrite bool_decide_eq_true_2 by eauto.
    destruct (IH rest) as [Hrows Hrest].
    destruct (ICU.zone_loop now_p room rest) as [rows remaining].
    simpl in Hrows, Hrest. subst rows remaining.
    cbn [fst snd take fmap list_fmap ICU.row_of length]. rewrite Hoff.
    split; [done|]. repeat case_decide; try lia; done.
  - rewrite bool_decide_eq_false_2 by (intros [? ?]; done). done.
Qed.

Lemma good_prefix_length now_p zones :
  length (ICU.good_prefix now_p zones) ≤ length zones.
Proof.
  induction zones as [|z zones IH]; simpl; [done|].
  destruct (ICU.yields_row now_p z); simpl; lia.
Qed.

Lemma good_prefix_all now_p zones :
  Forall (λ z, ICU.yields_row now_p z = true) zones →
  ICU.good_prefix now_p zones = zones.
Proof.
  induction 1 as [|z zones Hz _ IH]; simpl; [done|]. by rewrite Hz, IH.
Qed.

Lemma ICUTimeZoneFunction_all_good data :
  Forall (λ z, ICU.yields_row (ICU.now data) z = true) (ICU.tzs data) →
  ICU.ICUTimeZoneFunction data
  = ({| ICU.tzs := drop ICU.STANDARD_VECTOR_SIZE (ICU.tzs data); ICU.now := ICU.now data |},
     ICU.row_of (ICU.now data) <$> take ICU.STANDARD_VECTOR_SIZE (ICU.tzs data)).
Proof.
  intros Hgood. unfold ICU.ICUTimeZoneFunction.
  destruct (zone_loop_spec (ICU.now data) ICU.STANDARD_VECTOR_SIZE (ICU.tzs data))
    as [Hrows Hrest].
  destruct (ICU.zone_loop _ _ _) as [rows remaining]. simpl in Hrows, Hrest.
  rewrite good_prefix_all in Hrows, Hrest by done. subst rows remaining.
  f_equal. f_equal. case_decide; [done|].
  rewrite !drop_ge by lia. done.
Qed.

(** X9: one call of the time zone function emits at most
    [STANDARD_VECTOR_SIZE] rows, never more rows than entries it consumed,
    and it consumes at most one entry that it does not emit. *)
Theorem time_zone_chunk_bounds (data : ICU.ICUTimeZoneData) :
  length (ICU.ICUTimeZoneFunction data).2 ≤ ICU.STANDARD_VECTOR_SIZE
  ∧ length (ICU.ICUTimeZoneFunction data).2 + length (ICU.tzs (ICU.ICUTimeZoneFunction data).1)
    ≤ length (ICU.tzs data)
  ∧ length (ICU.tzs data)
    ≤ length (ICU.ICUTimeZoneFunction data).2
      + length (ICU.tzs (ICU.ICUTimeZoneFunction data).1) + 1.
Proof.
  unfold ICU.ICUTimeZoneFunction.
  destruct (zone_loop_spec (ICU.now data) ICU.STANDARD_VECTOR_SIZE (ICU.tzs data))
    as [Hrows Hrest].
  pose proof (good_prefix_length (ICU.now data) (ICU.tzs data)) as Hgp.
  destruct (ICU.zone_loop _ _ _) as [rows remaining]. simpl in *.
  subst rows remaining. rewrite length_fmap, length_take, length_drop.
  case_decide; lia.
Qed.

(** X10: one call emits the rows of the entries before the first one that
    fails (a failed [snext] or an unknown offset), up to
    [STANDARD_VECTOR_SIZE] of them, in order; when it stops at a failing
    entry, that entry is consumed and never emitted. *)
Theorem time_zone_chunk_rows (data : ICU.ICUTimeZoneData) :
  (ICU.ICUTimeZoneFunction data).2
  = ICU.row_of (ICU.now data)
      <$> take ICU.STANDARD_VECTOR_SIZE (ICU.good_prefix (ICU.now data) (ICU.tzs data))
  ∧ ICU.tzs (ICU.ICUTimeZoneFunction data).1
    = drop (if decide (ICU.STANDARD_VECTOR_SIZE
                       ≤ length (ICU.good_prefix (ICU.now data) (ICU.tzs data)))
            then ICU.STANDARD_VECTOR_SIZE
            else S (length (ICU.good_prefix (ICU.now data) (ICU.tzs data))))
        (ICU.tzs data)
  ∧ ICU.now (ICU.ICUTimeZoneFunction data).1 = ICU.now data.
Proof.
  unfold ICU.ICUTimeZoneFunction.
  destruct (zone_loop_spec (ICU.now data) ICU.STANDARD_VECTOR_SIZE (ICU.tzs data))
    as [Hrows Hrest].
  destruct (ICU.zone_loop _ _ _) as [rows remaining]. simpl in *. done.
Qed.

(** X11: when every entry of the enumeration yields a row, calling the
    function [calls] times produces chunks whose concatenation is the rows of
    the first [calls * STANDARD_VECTOR_SIZE] entries, in order, each once,
    and leaves the enumeration at the entries after them. *)
Theorem time_zone_scan_complete (calls : nat) (data : ICU.ICUTimeZoneData) :
  Forall (λ z, ICU.yields_row (ICU.now data) z = true) (ICU.tzs data) →
  concat (ICU.scan_chunks calls data).1
  = ICU.row_of (ICU.now data)
      <$> take (calls * ICU.STANDARD_VECTOR_SIZE) (ICU.tzs data)
  ∧ ICU.tzs (ICU.scan_chunks calls data).2
    = drop (calls * ICU.STANDARD_VECTOR_SIZE) (ICU.tzs data).
Proof.
  revert data. induction calls as [|calls IH]; intros data Hgood; [done|].
  cbn [ICU.scan_chunks]. rewrite ICUTimeZoneFunction_all_good by done.
  specialize (IH {| ICU.tzs := drop ICU.STANDARD_VECTOR_SIZE (ICU.tzs data);
                    ICU.now := ICU.now data |}).
  destruct (ICU.scan_chunks calls _) as [chunks data'']. simpl in *.
  destruct IH as [Hchunks Hdata]; [by apply Forall_drop|].
  rewrite Hchunks, Hdata. split.
  - rewrite <- fmap_app. f_equal. apply take_take_drop.
  - rewrite drop_drop. f_equal.
Qed.

Lemma zone_loop_filter now_p room : ∀ zones,
  ICU.row_of now_p <$> List.filter (ICU.yields_row now_p) zones
  = (ICU.zone_loop now_p room zones).1
    ++ (ICU.row_of now_p <$> List.filter (ICU.yields_row now_p)
                               (ICU.zone_loop now_p room zones).2).
Proof.
  induction room as [|room IH]; intros zones; [done|].
  destruct zones as [|[|long_id] rest]; try done.
  cbn [ICU.zone_loop List.filter ICU.yields_row].
  destruct (ICU.getOffset long_id now_p) as [[raw dst]|] eqn:Hoff.
  - rewrite bool_decide_eq_true_2 by eauto.
    specialize (IH rest).
    destruct (ICU.zone_loop now_p room rest) as [rows remaining].
    cbn [fst snd fmap list_fmap ICU.row_of app] in *. rewrite Hoff, IH. done.
  - rewrite bool_decide_eq_false_2 by (intros [? ?]; done). done.
Qed.

Lemma zone_loop_progress now_p room : ∀ zones,
  0 < room → zones ≠ [] →
  length (ICU.zone_loop now_p room zones).2 < length zones.
Proof.
  induction room as [|room IH]; intros zones Hroom Hne; [lia|].
  destruct zones as [|[|long_id] rest]; [done|simpl; lia|].
  cbn [ICU.zone_loop].
  destruct (ICU.getOffset long_id now_p) as [[raw dst]|]; [|simpl; lia].
  destruct room as [|room'].
  - simpl. lia.
  - destruct rest as [|z rest'].
    + simpl. lia.
    + specialize (IH (z :: rest') ltac:(lia) ltac:(done)).
      destruct (ICU.zone_loop now_p (S room') (z :: rest')) as [rows remaining].
      simpl in *. lia.
Qed.

(** X12: with room for at least one row per chunk, as many calls as the
    enumeration has entries exhaust it, and the chunks produced hold, in
    order and each once, the rows of exactly the entries that yield one: an
    entry that fails is skipped, nothing else is lost. *)
Theorem time_zone_scan_skips_failures (calls : nat) (data : ICU.ICUTimeZoneData) :
  0 < ICU.STANDARD_VECTOR_SIZE →
  length (ICU.tzs data) ≤ calls →
  concat (ICU.scan_chunks calls data).1
  = ICU.row_of (ICU.now data)
      <$> List.filter (ICU.yields_row (ICU.now data)) (ICU.tzs data)
  ∧ ICU.tzs (ICU.scan_chunks calls data).2 = [].
Proof.
  intros Hroom. revert data.
  induction calls as [|calls IH]; intros data Hlen.
  - destruct (ICU.tzs data) eqn:Hz; [|simpl in Hlen; lia]. simpl. by rewrite Hz.
  - cbn [ICU.scan_chunks]. unfold ICU.ICUTimeZoneFunction.
    pose proof (zone_loop_filter (ICU.now data) ICU.STANDARD_VECTOR_SIZE (ICU.tzs data))
      as Hfilter.
    assert (length (ICU.zone_loop (ICU.now data) ICU.STANDARD_VECTOR_SIZE
                      (ICU.tzs data)).2 ≤ calls) as Hless.
    { destruct (ICU.tzs data) as [|z zones] eqn:Hz.
      - destruct ICU.STANDARD_VECTOR_SIZE; simpl; lia.
      - pose proof (zone_loop_progress (ICU.now data) ICU.STANDARD_VECTOR_SIZE
                      (z :: zones) Hroom ltac:(done)). lia. }
    destruct (ICU.zone_loop _ _ _) as [rows remaining]. simpl in Hfilter, Hless.
    specialize (IH {| ICU.tzs := remaining; ICU.now := ICU.now data |} Hless).
    destruct (ICU.scan_chunks calls _) as [chunks data'']. simpl in *.
    destruct IH as [Hchunks Hdata]. rewrite Hchunks, Hdata, Hfilter. done.
Qed.

Lemma first_without_slash_spec long_id count : ∀ idx,
  match ICU.first_without_slash long_id idx count with
  | Some eid =>
      ∃ i, idx ≤ i < idx + count ∧ eid = ICU.getEquivalentID long_id i
           ∧ (ICU.indexOf eid ICU.slash < 0)%Z
           ∧ ∀ j, idx ≤ j < i →
                  (0 ≤ ICU.indexOf (ICU.getEquivalentID long_id j) ICU.slash)%Z
  | None =>
      ∀ j, idx ≤ j < idx + count →
           (0 ≤ ICU.indexOf (ICU.getEquivalentID long_id j) ICU.slash)%Z
  end.
Proof.
  induction count as [|count IH]; intros idx; simpl; [intros j Hj; lia|].
  destruct (Z.ltb_spec (ICU.indexOf (ICU.getEquivalentID long_id idx) ICU.slash) 0)
    as [Hfree|Hslash].
  - exists idx. split; [lia|]. split; [done|]. split; [done|]. intros j Hj. lia.
  - specialize (IH (S idx)).
    destruct (ICU.first_without_slash long_id (S idx) count) as [eid|].
    + destruct IH as (i & Hi & Heid & Hfree & Hbefore).
      exists i. split; [lia|]. split; [done|]. split; [done|].
      intros j Hj. destruct (decide (j = idx)) as [->|Hne]; [done|].
      apply Hbefore. lia.
    + intros j Hj. destruct (decide (j = idx)) as [->|Hne]; [done|].
      apply IH. lia.
Qed.

(** What the loop over the equivalent identifiers leaves in [short_id]. *)
Lemma short_id_spec (long_id : string) :
  (∃ i, i < ICU.countEquivalentIDs long_id
        ∧ ICU.short_id long_id = ICU.getEquivalentID long_id i
        ∧ (ICU.indexOf (ICU.short_id long_id) ICU.slash < 0)%Z
        ∧ ∀ j, j < i → (0 ≤ ICU.indexOf (ICU.getEquivalentID long_id j) ICU.slash)%Z)
  ∨ (ICU.short_id long_id = long_id
     ∧ ∀ j, j < ICU.countEquivalentIDs long_id →
            (0 ≤ ICU.indexOf (ICU.getEquivalentID long_id j) ICU.slash)%Z).
Proof.
  unfold ICU.short_id.
  pose proof (first_without_slash_spec long_id (ICU.countEquivalentIDs long_id) 0) as Hspec.
  destruct (ICU.first_without_slash long_id 0 _) as [eid|]; simpl.
  - left. destruct Hspec as (i & Hi & Heid & Hfree & Hbefore).
    exists i. split; [lia|]. split; [done|]. split; [exact Hfree|].
    intros j Hj. apply Hbefore. lia.
  - right. split; [done|]. intros j Hj. apply Hspec. lia.
Qed.

(** X13: in every row the time zone function emits, column 0 holds an
    identifier of the enumeration and column 1, the abbreviation, holds the
    first equivalent identifier of that zone without a slash; only when every
    equivalent identifier has a slash (or there is none) does column 1 repeat
    the long identifier of column 0. *)
Theorem abbreviation_column_first_without_slash (data : ICU.ICUTimeZoneData) :
  Forall (λ row,
            ∃ long_id abbrev,
              ICU.SNextId long_id ∈ ICU.tzs data
              ∧ row !! 0 = Some (ICU.ValueVarchar long_id)
              ∧ row !! 1 = Some (ICU.ValueVarchar abbrev)
              ∧ ((∃ i, i < ICU.countEquivalentIDs long_id
                       ∧ abbrev = ICU.getEquivalentID long_id i
                       ∧ (ICU.indexOf abbrev ICU.slash < 0)%Z
                       ∧ ∀ j, j < i →
                              (0 ≤ ICU.indexOf (ICU.getEquivalentID long_id j)
                                     ICU.slash)%Z)
                 ∨ (abbrev = long_id
                    ∧ ∀ j, j < ICU.countEquivalentIDs long_id →
                           (0 ≤ ICU.indexOf (ICU.getEquivalentID long_id j)
                                  ICU.slash)%Z)))
    (ICU.ICUTimeZoneFunction data).2.
Proof.
  unfold ICU.ICUTimeZoneFunction.
  assert (∀ room zones,
            Forall (λ row,
                      ∃ long_id abbrev,
                        ICU.SNextId long_id ∈ zones
                        ∧ row !! 0 = Some (ICU.ValueVarchar long_id)
                        ∧ row !! 1 = Some (ICU.ValueVarchar abbrev)
                        ∧ ((∃ i, i < ICU.countEquivalentIDs long_id
                                 ∧ abbrev = ICU.getEquivalentID long_id i
                                 ∧ (ICU.indexOf abbrev ICU.slash < 0)%Z
                                 ∧ ∀ j, j < i →
                                        (0 ≤ ICU.indexOf (ICU.getEquivalentID long_id j)
                                               ICU.slash)%Z)
                           ∨ (abbrev = long_id
                              ∧ ∀ j, j < ICU.countEquivalentIDs long_id →
                                     (0 ≤ ICU.indexOf (ICU.getEquivalentID long_id j)
                                            ICU.slash)%Z)))
              (ICU.zone_loop (ICU.now data) room zones).1) as Hloop.
  { induction room as [|room IH]; intros zones; simpl; [constructor|].
    destruct zones as [|[|long_id] rest]; simpl; try constructor.
    destruct (ICU.getOffset long_id (ICU.now data)) as [[raw dst]|]; [|constructor].
    specialize (IH rest).
    destruct (ICU.zone_loop (ICU.now data) room rest) as [rows remaining]. simpl in *.
    constructor.
    - exists long_id, (ICU.short_id long_id).
      split; [by left|]. split; [done|]. split; [done|].
      apply short_id_spec.
    - eapply Forall_impl; [exact IH|].
      intros row (l & abbrev & Hin & Hrest). exists l, abbrev.
      split; [by right|exact Hrest]. }
  specialize (Hloop ICU.STANDARD_VECTOR_SIZE (ICU.tzs data)).
  destruct (ICU.zone_loop _ _ _) as [rows remaining]. exact Hloop.
Qed.

(** X14: every row the time zone function emits has exactly the columns
    [ICUTimeZoneBind] declares: as many values as names, and the declared
    type in each position. *)
Theorem time_zone_rows_match_schema (data : ICU.ICUTimeZoneData)
    (return_types : list ICU.LogicalTypeId) (names : list string) :
  Forall (λ row,
            ICU.type_of <$> row
            = drop (length return_types) (ICU.ICUTimeZoneBind return_types names).1
            ∧ length row
              = length (drop (length names) (ICU.ICUTimeZoneBind return_types names).2))
    (ICU.ICUTimeZoneFunction data).2.
Proof.
  unfold ICU.ICUTimeZoneFunction, ICU.ICUTimeZoneBind. simpl.
  rewrite !drop_app_length.
  generalize (ICU.tzs data) as zones. generalize ICU.STANDARD_VECTOR_SIZE as room.
  induction room as [|room IH]; intros zones; simpl; [constructor|].
  destruct zones as [|[|long_id] rest]; simpl; try constructor.
  destruct (ICU.getOffset long_id (ICU.now data)) as [[raw dst]|]; [|constructor].
  specialize (IH rest).
  destruct (ICU.zone_loop (ICU.now data) room rest) as [rows remaining]. simpl in *.
  constructor; [done|exact IH].
Qed.

End TimeZones.

Section Loading.
Context `{lib : ICU.Library}.

Lemma perform_spec respond calls : ∀ history,
  ∃ made rest,
    calls = made ++ rest
    ∧ (ICU.perform respond history calls).1 = history ++ made
    ∧ (calls ≠ [] → made ≠ [])
    ∧ ((ICU.perform respond history calls).2 = None → rest = [])
    ∧ ∀ e, (ICU.perform respond history calls).2 = Some e →
           ∃ pre call, made = pre ++ [call] ∧ respond (history ++ pre) call = Some e.
Proof.
  induction calls as [|call calls IH]; intros history; simpl.
  - exists [], []. rewrite !app_nil_r.
    split; [done|]. split; [done|]. split; [done|]. split; [done|]. intros e He. done.
  - destruct (respond history call) as [e|] eqn:Hresp; simpl.
    + exists [call], calls.
      split; [done|]. split; [done|]. split; [done|]. split; [done|].
      intros e' [= <-]. exists [], call. by rewrite app_nil_r.
    + destruct (IH (history ++ [call])) as (made & rest & Hcalls & Htrace & _ & Hok & Hfail).
      exists (call :: made), rest. rewrite Htrace, <- app_assoc. simpl.
      split; [by rewrite Hcalls|]. split; [done|]. split; [done|]. split; [done|].
      intros e He. destruct (Hfail e He) as (pre & last & Hmade & Hresp').
      exists (call :: pre), last. rewrite Hmade. split; [done|].
      by rewrite <- app_assoc in Hresp'.
Qed.

Lemma load_calls_commit_last locales :
  ∃ body, ICU.load_calls locales = body ++ [ICU.CallCommit] ∧ ICU.CallCommit ∉ body.
Proof.
  exists (ICU.CallBeginTransaction
          :: (ICU.create_collation <$> locales)
          ++ [ICU.CallCreateFunction
                {| ICU.name := "icu_sort_key"; ICU.arguments := [ICU.VARCHAR; ICU.VARCHAR];
                   ICU.return_type := ICU.VARCHAR; ICU.has_side_effects := false;
                   ICU.bind := ICU.BindICUSortKey |};
              ICU.CallAddExtensionOption "TimeZone" "The current time zone" ICU.VARCHAR;
              ICU.CallSetVariable "TimeZone" (ICU.ValueVarchar "UTC");
              ICU.CallCreateTableFunction "pg_timezone_names";
              ICU.CallRegisterICUDatePartFunctions;
              ICU.CallRegisterICUDateTruncFunctions]).
  split.
  - unfold ICU.load_calls. simpl. f_equal. rewrite <- app_assoc. done.
  - rewrite not_elem_of_cons, not_elem_of_app. split; [done|]. split.
    + intros Hin. apply list_elem_of_fmap in Hin as (locale & Heq & _). done.
    + intros Hin. repeat (apply elem_of_cons in Hin as [Heq|Hin]; [done|]).
      by apply elem_of_nil in Hin.
Qed.

(** X15: [Load] makes its calls in program order and stops at the first that
    throws: its first call is [BeginTransaction], the calls made are a
    prefix of the full sequence, a thrown exception is that of the last call
    made, and [Commit] is attempted only after every registration went
    through; without exception all calls were made. *)
Theorem load_commits_after_all_registrations
    (respond : list ICU.Call → ICU.Call → option ICU.Throwable)
    (locales : list (string * string)) :
  (∃ rest, ICU.load_calls locales = (ICU.Load respond locales).1 ++ rest)
  ∧ head (ICU.Load respond locales).1 = Some ICU.CallBeginTransaction
  ∧ ((ICU.Load respond locales).2 = None →
     (ICU.Load respond locales).1 = ICU.load_calls locales)
  ∧ (ICU.CallCommit ∈ (ICU.Load respond locales).1 →
     (ICU.Load respond locales).1 = ICU.load_calls locales)
  ∧ ∀ e, (ICU.Load respond locales).2 = Some e →
         ∃ pre call, (ICU.Load respond locales).1 = pre ++ [call]
                     ∧ respond pre call = Some e.
Proof.
  unfold ICU.Load.
  destruct (perform_spec respond (ICU.load_calls locales) [])
    as (made & rest & Hcalls & Htrace & Hne & Hok & Hfail).
  cbn [app] in Htrace. rewrite Htrace.
  split; [by exists rest|]. split.
  { destruct made as [|first made]; [by destruct Hne|].
    unfold ICU.load_calls in Hcalls. simpl in Hcalls. by simplify_eq. }
  split.
  { intros Hnone. rewrite Hcalls, (Hok Hnone), app_nil_r. done. }
  split.
  { intros Hin. destruct (load_calls_commit_last locales) as (body & Hbody & Hnotin).
    rewrite Hcalls. destruct rest as [|x rest _] using rev_ind; [by rewrite app_nil_r|].
    rewrite Hcalls, app_assoc in Hbody. apply app_inj_tail in Hbody as [Hbody _].
    subst body. destruct Hnotin. apply elem_of_app. by left. }
  intros e He. destruct (Hfail e He) as (pre & call & Hmade & Hresp).
  exists pre, call. done.
Qed.

Lemma collation_calls_app calls1 calls2 :
  ICU.collation_calls (calls1 ++ calls2)
  = ICU.collation_calls calls1 ++ ICU.collation_calls calls2.
Proof.
  induction calls1 as [|call calls1 IH]; [done|].
  destruct call; simpl; by rewrite ?IH.
Qed.

Lemma collation_calls_load locales :
  ICU.collation_calls (ICU.load_calls locales)
  = (λ locale,
       {| ICU.collation_name :=
            if bool_decide (locale.2 = "") then ICU.Lower locale.1
            else ICU.Lower (locale.1 +:+ "_" +:+ locale.2);
          ICU.function :=
            {| ICU.name :=
                 if bool_decide (locale.2 = "") then ICU.Lower locale.1
                 else ICU.Lower (locale.1 +:+ "_" +:+ locale.2);
               ICU.arguments := [ICU.VARCHAR]; ICU.return_type := ICU.VARCHAR;
               ICU.has_side_effects := false; ICU.bind := ICU.BindICUCollate |};
          ICU.combinable := false; ICU.not_required_for_equality := true;
          ICU.on_conflict := ICU.IGNORE_ON_CONFLICT |}) <$> locales.
Proof.
  unfold ICU.load_calls. cbn [ICU.collation_calls].
  induction locales as [|[lang ctry] locales IH]; [done|].
  cbn [fmap list_fmap app ICU.collation_calls ICU.create_collation].
  f_equal; [|exact IH].
  unfold ICU.collation_of, ICU.GetICUFunction. simpl.
  by destruct (bool_decide (ctry = "")).
Qed.

(** X16: whatever happens during [Load], the [CreateCollation] calls it has
    made are those for an initial part of the available locales, one call
    per locale and in their order, so that two locales with the same
    lower-cased name give two calls under that one name. The call for a
    locale names the collation by the lower-cased language when the country
    is empty and by the lower-cased language, underscore and country
    otherwise, passes a function of that same name with one [VARCHAR]
    argument that [ICUCollateBind] binds, and asks for conflicts to be
    ignored. A [Load] that ends without exception has made the call for
    every locale. *)
Theorem load_collation_calls
    (respond : list ICU.Call → ICU.Call → option ICU.Throwable)
    (locales : list (string * string)) :
  ∃ n,
    ICU.collation_calls (ICU.Load respond locales).1
    = (λ locale,
         {| ICU.collation_name :=
              if bool_decide (locale.2 = "") then ICU.Lower locale.1
              else ICU.Lower (locale.1 +:+ "_" +:+ locale.2);
            ICU.function :=
              {| ICU.name :=
                   if bool_decide (locale.2 = "") then ICU.Lower locale.1
                   else ICU.Lower (locale.1 +:+ "_" +:+ locale.2);
                 ICU.arguments := [ICU.VARCHAR]; ICU.return_type := ICU.VARCHAR;
                 ICU.has_side_effects := false; ICU.bind := ICU.BindICUCollate |};
            ICU.combinable := false; ICU.not_required_for_equality := true;
            ICU.on_conflict := ICU.IGNORE_ON_CONFLICT |}) <$> take n locales
    ∧ n ≤ length locales
    ∧ ((ICU.Load respond locales).2 = None → n = length locales).
Proof.
  unfold ICU.Load.
  destruct (perform_spec respond (ICU.load_calls locales) [])
    as (made & rest & Hcalls & Htrace & _ & Hok & _).
  cbn [app] in Htrace. rewrite Htrace.
  pose proof (collation_calls_load locales) as Hall.
  rewrite Hcalls, collation_calls_app in Hall.
  exists (length (ICU.collation_calls made)).
  assert (length (ICU.collation_calls made) ≤ length locales) as Hle.
  { apply (f_equal length) in Hall. rewrite length_app, length_fmap in Hall. lia. }
  split; [|split; [exact Hle|]].
  - rewrite fmap_take, <- Hall. by rewrite take_app_length.
  - intros Hnone. rewrite (Hok Hnone), app_nil_r in Hall.
    apply (f_equal length) in Hall. by rewrite length_fmap in Hall.
Qed.

End Loading.

(** ** More on the teardown of an attachment *)

(** X17: teardown calls the storage manager only when no exception is in
    flight; it then asks [InMemory] first, and the only other call it can
    make is one forced checkpoint right after. *)
Theorem teardown_calls (env : Collaborators) (this : AttachedDatabase.t) :
  (trace (AttachedDatabase.destroy env this) = [] ↔ UncaughtException env = true)
  ∧ (trace (AttachedDatabase.destroy env this) = []
     ∨ trace (AttachedDatabase.destroy env this) = [EvInMemory]
     ∨ trace (AttachedDatabase.destroy env this) = [EvInMemory; EvCreateCheckpoint true]).
Proof.
  rewrite destroy_unfold.
  destruct (UncaughtException env);
    destruct (InMemory env (AttachedDatabase.storage this));
    destruct (checkpoint_on_shutdown (options (config (AttachedDatabase.db this))));
    simpl; split; try (split; [done|done]); auto.
Qed.

(** X18: what teardown does and returns depends on the environment only
    through the in-flight failure and the in-memory answer: in particular a
    checkpoint that fails and one that succeeds cannot be told apart. *)
Theorem teardown_hides_checkpoint_result (env1 env2 : Collaborators)
    (this : AttachedDatabase.t) :
  UncaughtException env1 = UncaughtException env2 →
  InMemory env1 (AttachedDatabase.storage this)
    = InMemory env2 (AttachedDatabase.storage this) →
  AttachedDatabase.destroy env1 this = AttachedDatabase.destroy env2 this.
Proof.
  intros Hu Hm. rewrite !destroy_unfold, Hu, Hm. done.
Qed.

Lemma teardown_hides_checkpoint_result_witness :
  AttachedDatabase.destroy (sample_env false false (inl "disk full") (inr ()))
    (AttachedDatabase.create toy_env (sample_instance "/tmp/x.db" true))
  = AttachedDatabase.destroy (sample_env false false (inr ()) (inr ()))
      (AttachedDatabase.create toy_env (sample_instance "/tmp/x.db" true)).
Proof.
  apply (teardown_hides_checkpoint_result
           (sample_env false false (inl "disk full") (inr ()))
           (sample_env false false (inr ()) (inr ()))); reflexivity.
Defined.

(** ** The extension on a small library *)

Section IcuScenarios.
#[local] Existing Instance ICU.toy_library.

Example collation_of_two_rows :
  ICU.ICUCollateFunction ICU.german ["b"; "abc"] = Some ["62"; "616263"]
  ∧ String.compare "62" "616263" = Gt.
Proof. split; vm_compute; reflexivity. Qed.

Lemma sort_key_fetched_whole_witness :
  (ICU.ICUGetSortKey () "abc" [7; 7] (length [7; 7])).1.1 = length (ICU.toy_key "abc")
  ∧ (ICU.ICUGetSortKey () "abc" [7; 7] (length [7; 7])).2
    = max (length [7; 7]) (length (ICU.toy_key "abc"))
  ∧ length (ICU.ICUGetSortKey () "abc" [7; 7] (length [7; 7])).1.2
    = (ICU.ICUGetSortKey () "abc" [7; 7] (length [7; 7])).2
  ∧ take (length (ICU.toy_key "abc")) (ICU.ICUGetSortKey () "abc" [7; 7] (length [7; 7])).1.2
    = ICU.toy_key "abc".
Proof.
  exact (sort_key_fetched_whole (λ _, ICU.toy_key) () "abc" [7; 7] toy_sort_key_contract).
Defined.

Lemma collate_row_output_witness :
  ICU.collate_row () ([], 0) "ab" = Some ("6162", ([97; 98; 0], 3))
  ∧ String.length "6162" = 2 * ((ICU.ICUGetSortKey () "ab" [] 0).1.1 - 1)
  ∧ forallb ICU.is_hex_digit (String.list_ascii_of_string "6162") = true.
Proof.
  assert (ICU.collate_row () ([], 0) "ab" = Some ("6162", ([97; 98; 0], 3))) as Hrow
    by (vm_compute; reflexivity).
  split; [exact Hrow|].
  exact (collate_row_output () ([], 0) ([97; 98; 0], 3) "ab" "6162" Hrow).
Defined.

Lemma collate_function_rows_witness :
  ICU.ICUCollateFunction ICU.german ["b"; "abc"; ""]
  = Some ((λ input, String.string_of_list_ascii
                      (ICU.hex_of_bytes (ICU.key_body (ICU.toy_key input))))
            <$> ["b"; "abc"; ""]).
Proof.
  apply (collate_function_rows (λ _, ICU.toy_key) ICU.german ["b"; "abc"; ""]
           toy_sort_key_contract).
  - repeat constructor; discriminate.
  - intros _. repeat constructor; discriminate.
Defined.


Lemma collation_results_distinct_witness :
  ∃ o1 o2,
    ICU.ICUCollateFunction ICU.german ["b"; "abc"] = Some [o1; o2]
    ∧ (o1 = o2 ↔
       ICU.uint8 <$> ICU.key_body (ICU.toy_key "b")
       = ICU.uint8 <$> ICU.key_body (ICU.toy_key "abc")).
Proof.
  apply (collation_results_distinct (λ _, ICU.toy_key) ICU.german "b" "abc"
           toy_sort_key_contract); try discriminate.
  intros _. split; repeat constructor; discriminate.
Defined.

Lemma sort_key_bind_agrees_with_collate_bind_witness :
  ICU.ICUSortKeyBind [ICU.constant_argument; ICU.constant_argument]
  = Some (ICU.ICUCollateBind
            (ICU.name (ICU.GetICUFunction
                         (ICU.str_value {| ICU.is_null := false; ICU.str_value := "de_DE" |})))).
Proof.
  apply (sort_key_bind_agrees_with_collate_bind [ICU.constant_argument; ICU.constant_argument]
           ICU.constant_argument {| ICU.is_null := false; ICU.str_value := "de_DE" |});
    reflexivity.
Defined.

Example bind_results :
  ICU.ICUCollateBind "de_DE" = inr ICU.german
  ∧ ICU.ICUCollateBind "de_DE_x"
    = inl (ICU.InternalException "Expected one or two splits")
  ∧ ICU.ICUSortKeyBind [ICU.constant_argument; ICU.constant_argument] = Some (inr ICU.german).
Proof. repeat split; vm_compute; reflexivity. Qed.

Lemma time_zone_scan_complete_witness :
  concat (ICU.scan_chunks 2 ICU.three_zones).1
  = ICU.row_of (ICU.now ICU.three_zones)
      <$> take (2 * ICU.STANDARD_VECTOR_SIZE) (ICU.tzs ICU.three_zones)
  ∧ ICU.tzs (ICU.scan_chunks 2 ICU.three_zones).2
    = drop (2 * ICU.STANDARD_VECTOR_SIZE) (ICU.tzs ICU.three_zones).
Proof.
  apply (time_zone_scan_complete 2 ICU.three_zones).
  repeat constructor.
Defined.

Lemma time_zone_scan_skips_failures_witness :
  concat (ICU.scan_chunks 3 ICU.faulty_zones).1
  = ICU.row_of (ICU.now ICU.faulty_zones)
      <$> List.filter (ICU.yields_row (ICU.now ICU.faulty_zones)) (ICU.tzs ICU.faulty_zones)
  ∧ ICU.tzs (ICU.scan_chunks 3 ICU.faulty_zones).2 = [].
Proof.
  apply (time_zone_scan_skips_failures 3 ICU.faulty_zones); simpl; lia.
Defined.

Example time_zone_failures_skipped :
  (ICU.scan_chunks 3 ICU.faulty_zones).1
  = [ []; [];
      [ [ICU.ValueVarchar "Asia/Tokyo"; ICU.ValueVarchar "Asia/Tokyo";
         ICU.ValueInterval (-18000000000); ICU.ValueBoolean false] ] ].
Proof. vm_compute. reflexivity. Qed.

Example time_zone_chunks :
  (ICU.scan_chunks 2 ICU.three_zones).1
  = [ [ [ICU.ValueVarchar "Europe/London"; ICU.ValueVarchar "GB";
         ICU.ValueInterval 0; ICU.ValueBoolean true];
        [ICU.ValueVarchar "America/Lima"; ICU.ValueVarchar "America/Lima";
         ICU.ValueInterval (-18000000000); ICU.ValueBoolean false] ];
      [ [ICU.ValueVarchar "Asia/Tokyo"; ICU.ValueVarchar "Asia/Tokyo";
         ICU.ValueInterval (-18000000000); ICU.ValueBoolean false] ] ].
Proof. vm_compute. reflexivity. Qed.

(** Two locales with the same lower-cased name: two calls under one name;
    and the names of the calls for a locale with and without country. *)
Example load_collation_call_names :
  ICU.collation_name
    <$> ICU.collation_calls
          (ICU.Load (λ _ _, None) [("de", "DE"); ("fr", ""); ("de", "DE")]).1
  = ["de_DE"; "fr"; "de_DE"].
Proof. vm_compute. reflexivity. Qed.

(** A zero byte inside a sort key stops the collation function when
    [D_ASSERT] is checked. *)
Example collation_stops_at_zero_byte :
  ICU.D_ASSERT_checks = true
  ∧ ICU.toy_key (String Ascii.zero "a") = [0; 97; 0]
  ∧ ICU.ICUCollateFunction ICU.german [String Ascii.zero "a"] = None.
Proof. repeat split; vm_compute; reflexivity. Qed.

(** [Copy] rebuilds the bind data from the C strings: a language with an
    embedded NUL is cut there. *)
Example copy_cuts_at_nul :
  ICU.Copy {| ICU.collator := (); ICU.language := "de" +:+ String Ascii.zero "x";
              ICU.country := "DE" |}
  = inr ICU.german.
Proof. vm_compute. reflexivity. Qed.

(** A registration that throws: the calls stop there and nothing commits. *)
Example load_stops_at_failure :
  ICU.Load (λ history call,
              match call with
              | ICU.CallCreateFunction _ => Some (ICU.Exception "catalog")
              | _ => None
              end) [("fr", "")]
  = ([ICU.CallBeginTransaction;
      ICU.create_collation ("fr", "");
      ICU.CallCreateFunction
        {| ICU.name := "icu_sort_key"; ICU.arguments := [ICU.VARCHAR; ICU.VARCHAR];
           ICU.return_type := ICU.VARCHAR; ICU.has_side_effects := false;
           ICU.bind := ICU.BindICUSortKey |}],
     Some (ICU.Exception "catalog")).
Proof. vm_compute. reflexivity. Qed.

End IcuScenarios.
